(** * poker-learn: the spaced-repetition engine (src/engine/srs.ts)

    A shallow embedding of the scheduling engine and of the catalog it
    reads (src/data/ranges.ts), with the properties of the engine's
    specification stated and proved over it.

    Numbers.  Every field of the engine is a JavaScript [number].  The
    counters and ticks ([interval], [repetitions], [due], [lastSeen], the
    clock and the four statistics) only ever hold integers and are
    modelled in [Z]; [ease], the one fractional quantity, is modelled as
    an exact rational in [Q], with the decimal literals 2.5, 1.3, 0.1 and
    0.3 taken at their decimal value.  The rounding of IEEE-754 binary64
    arithmetic, its infinities and NaN are therefore outside the model of
    the engine.  The last section takes the update rule of an ease and of
    an interval in binary64 itself: [binary64_ease_floor],
    [binary64_ease_step] and [binary64_interval_lower] are the facts the
    properties rest on, and [binary64_three_correct] replays the one
    computation the specification gives in digits.

    State.  The module-level variables [deck] and [clock] and the browser's
    [localStorage] are threaded explicitly through every operation as one
    [state] record.  A [Map] is an insertion-ordered association list, as
    the order of [deck.values()] is observable through [getNextCard].

    Storage.  A stored string is described by what [JSON.parse] makes of
    it.  The engine is embedded over storage whose texts have the types
    the source declares for them ([Stats], [CardState[]]); the module
    [Raw] embeds the two loaders again over arbitrary JSON values, and
    [loadStats_runtime] and [loadDeck_runtime] show that the two agree on
    the texts the engine writes.

    The application.  Beside the engine the file embeds what the trainer
    does with it: [getCorrectActions] of the table of ranges, the handlers
    of the component in src/App.tsx ([drawCard], [handleAction],
    [handleReset]) as functions of the state variables they close over and
    of the engine's state, and the parsers of a hand's name ([formatHand],
    and [parseHand] and [getSuits] of HandDisplay).

    The file has three parts: the program, the vocabulary of the
    properties, and the properties: C1 to C10, then X1 to X28, further
    properties of the engine, of the table and of the application. *)

From Stdlib Require Import ZArith QArith Qround Lia SpecFloat.
From Stdlib Require Import List String Ascii.
From Stdlib Require Import Sorting.Permutation Sorting.Sorted.
From stdpp Require Import gmap strings.

Local Open Scope string_scope.
Local Open Scope Z_scope.

(** ** The runtime: Math and Map *)

Module Math.

(** [Math.max(a, b)] on two numbers. *)
Definition max (a b : Q) : Q := if Qle_bool a b then b else a.

(** [Math.round(x)]: the nearest integer, halves rounded up. *)
Definition round (x : Q) : Z := Qfloor (x + (1 # 2)).

(** [Math.floor(x)]. *)
Definition floor (x : Q) : Z := Qfloor x.

End Math.

(** [Map<string, V>]: keys in insertion order.  [set] on a key that is
    present replaces the value where it stands, on a new key it appends. *)
Module Map.
Section Map.
Context {V : Type}.

Definition t := list (string * V).

Definition empty : t := [].

Fixpoint get (k : string) (m : t) : option V :=
    match m with
    | [] => None
    | (k', v) :: m' => if String.eqb k' k then Some v else get k m'
    end.

Definition has (k : string) (m : t) : bool :=
    match get k m with Some _ => true | None => false end.

Fixpoint set (k : string) (v : V) (m : t) : t :=
    match m with
    | [] => [(k, v)]
    | (k', v') :: m' =>
        if String.eqb k' k then (k', v) :: m' else (k', v') :: set k v m'
    end.

Definition values (m : t) : list V := map snd m.

Definition keys (m : t) : list string := map fst m.

End Map.
Arguments t : clear implicits.
End Map.

(** ** The catalog (src/data/ranges.ts) *)

Inductive Position := UTG | Middle | Cutoff | Blinds.

Inductive Action := Fold | Raise | Call | ThreeBet.

(** The string behind each member of the union type [Position]. *)
Definition Position_string (p : Position) : string :=
  match p with
  | UTG => "UTG" | Middle => "Middle" | Cutoff => "Cutoff" | Blinds => "Blinds"
  end.

Record RangeEntry := {
  entry_hand : string;
  actions : Position -> list Action;
}.

Definition entry (h : string) (utg middle cutoff blinds : list Action) : RangeEntry :=
  {| entry_hand := h;
     actions := fun p =>
       match p with
       | UTG => utg | Middle => middle | Cutoff => cutoff | Blinds => blinds
       end |}.

Definition RANGES : list RangeEntry :=
  [ entry "AA" [Raise] [Raise] [Raise] [Raise; ThreeBet];
    entry "KK" [Raise] [Raise] [Raise] [Raise; ThreeBet];
    entry "QQ" [Raise] [Raise] [Raise] [Raise; ThreeBet];
    entry "JJ" [Raise] [Raise] [Raise] [Raise; ThreeBet];
    entry "TT" [Raise] [Raise] [Raise] [Raise];
    entry "99" [Raise] [Raise] [Raise] [Raise];
    entry "88" [Fold] [Raise] [Raise] [Raise];
    entry "77" [Fold] [Raise] [Raise] [Raise] ]
  ++ map (fun h => entry h [Fold] [Fold] [Raise] [Call])
         ["66"; "55"; "44"; "33"; "22"]
  ++ [ entry "AKs" [Raise] [Raise] [Raise] [ThreeBet];
       entry "AKo" [Raise] [Raise] [Raise] [ThreeBet];
       entry "AQs" [Raise] [Raise] [Raise] [ThreeBet];
       entry "AQo" [Fold] [Raise] [Raise] [Raise];
       entry "AJs" [Fold] [Raise] [Raise] [Raise];
       entry "ATs" [Fold] [Raise] [Raise] [Raise];
       entry "KQs" [Fold] [Raise] [Raise] [Raise];
       entry "KJs" [Fold] [Raise] [Raise] [Raise] ]
  ++ map (fun h => entry h [Fold] [Fold] [Raise] [Call])
         ["A9s"; "A8s"; "A7s"; "A6s"; "A5s"; "A4s"; "A3s"; "A2s"]
  ++ map (fun h => entry h [Fold] [Fold] [Raise] [Call])
         ["JTs"; "T9s"; "98s"].

Record Combo := { combo_hand : string; combo_position : Position }.

(** The two nested loops of [getAllCombos]: every entry, at every
    position, in that order. *)
Definition getAllCombos : list Combo :=
  let positions := [UTG; Middle; Cutoff; Blinds] in
  flat_map (fun e =>
    map (fun pos => {| combo_hand := entry_hand e; combo_position := pos |})
        positions) RANGES.

(** [getCorrectActions]: the actions of the first entry of that hand at
    the position, and ['Fold'] alone for a hand the table does not
    list. *)
Definition getCorrectActions (hand_ : string) (position_ : Position) : list Action :=
  match List.find (fun r => String.eqb (entry_hand r) hand_) RANGES with
  | None => [Fold]
  | Some entry => actions entry position_
  end.

(** ** The engine's records *)

Record CardState := {
  hand : string;
  position : string;
  interval : Z;
  ease : Q;
  repetitions : Z;
  due : Z;
  lastSeen : Z;
}.

Record Stats := {
  totalReviews : Z;
  correctReviews : Z;
  currentStreak : Z;
  bestStreak : Z;
}.

Definition defaultStats : Stats :=
  {| totalReviews := 0; correctReviews := 0; currentStreak := 0; bestStreak := 0 |}.

Abbreviation Deck := (Map.t CardState).

(** ** Exceptions, JSON texts and localStorage *)

Inductive js_error := SyntaxError | TypeError.

(** The outcome of evaluating a piece of JavaScript: a value, or a thrown
    exception. *)
Inductive js (A : Type) : Type :=
  | Ok (a : A)
  | Throw (e : js_error).
Arguments Ok {A} a.
Arguments Throw {A} e.

Definition js_bind {A B} (x : js A) (f : A -> js B) : js B :=
  match x with
  | Ok a => f a
  | Throw e => Throw e
  end.

Notation "x <- e1 ;; e2" := (js_bind e1 (fun x => e2))
  (at level 100, e1 at next level, right associativity).

(** A string held by [localStorage], described by what [JSON.parse] makes
    of it: the empty string (the one falsy string), a non-empty string
    that [JSON.parse] rejects, or a JSON text, given by the value [a] it
    denotes.  [JSON.stringify] and [JSON.parse] are the runtime's: a value
    that is written is read back as written. *)
Inductive text (A : Type) : Type :=
  | Empty
  | Garbage
  | Json (a : A).
Arguments Empty {A}.
Arguments Garbage {A}.
Arguments Json {A} a.

Module JSON.

Definition parse {A} (raw : text A) : js A :=
  match raw with
  | Json a => Ok a
  | Empty | Garbage => Throw SyntaxError
  end.

Definition stringify {A} (a : A) : text A := Json a.

End JSON.

(** The truthiness test [if (raw)] on a string. *)
Definition truthy {A} (raw : text A) : bool :=
  match raw with
  | Empty => false
  | _ => true
  end.

(** The two slots of [localStorage] the engine uses, under the keys
    [STORAGE_KEY = 'poker-srs-state'] and [STATS_KEY = 'poker-srs-stats'],
    at the types the engine declares for their contents.  [None] is an
    absent key ([getItem] returns null). *)
Record localStorage := {
  STORAGE_KEY : option (text (list CardState));
  STATS_KEY : option (text Stats);
}.

(** ** Statistics *)

Definition loadStats (ls : localStorage) : Stats :=
  match STATS_KEY ls with
  | Some raw =>
      if truthy raw then
        match JSON.parse raw with
        | Ok s => s
        | Throw _ => defaultStats
        end
      else defaultStats
  | None => defaultStats
  end.

Definition saveStats (s : Stats) (ls : localStorage) : localStorage :=
  {| STORAGE_KEY := STORAGE_KEY ls; STATS_KEY := Some (JSON.stringify s) |}.

(** ** Deck management *)

Definition comboKey (c : Combo) : string :=
  combo_hand c ++ "|" ++ Position_string (combo_position c).

Definition loadDeck (ls : localStorage) : Deck :=
  match STORAGE_KEY ls with
  | Some raw =>
      if truthy raw then
        match JSON.parse raw with
        | Ok arr =>
            fold_left (fun map cs => Map.set (hand cs ++ "|" ++ position cs) cs map)
                      arr Map.empty
        | Throw _ => Map.empty
        end
      else Map.empty
  | None => Map.empty
  end.

Definition saveDeck (deck : Deck) (ls : localStorage) : localStorage :=
  {| STORAGE_KEY := Some (JSON.stringify (Map.values deck)); STATS_KEY := STATS_KEY ls |}.

(** The module's variables ([let deck = null], [let clock = 0]) and the
    storage they are saved to. *)
Record state := {
  deck : option Deck;
  clock : Z;
  storage : localStorage;
}.

(** The state of a freshly loaded module over a given storage. *)
Definition module_init (ls : localStorage) : state :=
  {| deck := None; clock := 0; storage := ls |}.

(** The card [ensureDeck] creates for a combo that has none. *)
Definition newCard (c : Combo) : CardState :=
  {| hand := combo_hand c;
     position := Position_string (combo_position c);
     interval := 0;
     ease := 2.5;
     repetitions := 0;
     due := 0;
     lastSeen := -1 |}.

(** The first loop of [ensureDeck]: every combo gets a card. *)
Definition addMissing (combos : list Combo) (d : Deck) : Deck :=
  fold_left (fun d c =>
               let key := comboKey c in
               if Map.has key d then d else Map.set key (newCard c) d)
            combos d.

(** The second loop of [ensureDeck]: one pass over the cards, two tests
    per card, from the clock's current value. *)
Definition clockBootstrap (cards : list CardState) (clock : Z) : Z :=
  fold_left (fun clock cs =>
               let clock := if due cs >? clock then due cs else clock in
               if lastSeen cs >=? clock then lastSeen cs + 1 else clock)
            cards clock.

Definition ensureDeck (s : state) : Deck * state :=
  match deck s with
  | Some d => (d, s)
  | None =>
      let d := loadDeck (storage s) in
      let d := addMissing getAllCombos d in
      let clock := clockBootstrap (Map.values d) (clock s) in
      (d, {| deck := Some d; clock := clock; storage := storage s |})
  end.

(** ** Picking the next card *)

Module Array.
Section Array.
Context {A : Type}.

(** [arr.sort(compare)]: ascending for [compare], and stable (elements
    that compare as equal keep their order), which fixes the result. *)
Fixpoint insert (compare : A -> A -> Z) (a : A) (arr : list A) : list A :=
  match arr with
  | [] => [a]
  | b :: arr' =>
      if compare a b >? 0 then b :: insert compare a arr' else a :: b :: arr'
  end.

Definition sort (compare : A -> A -> Z) (arr : list A) : list A :=
  fold_right (insert compare) [] arr.

(** [arr[i]], which is [undefined] ([None]) outside the array. *)
Definition at_ (arr : list A) (i : Z) : option A :=
  if i <? 0 then None else nth_error arr (Z.to_nat i).

End Array.
End Array.

(** Reading the property [due] of [arr[0]]: a TypeError when the array is
    empty. *)
Definition first_due (arr : list CardState) : js Z :=
  match Array.at_ arr 0 with
  | Some c => Ok (due c)
  | None => Throw TypeError
  end.

(** [getNextCard], with the value of [Math.random()] as the argument
    [random].  The result is a card, [undefined] ([Ok None]) or an
    exception. *)
Definition getNextCard (random : Q) (s : state) : js (option CardState) * state :=
  let '(d, s) := ensureDeck s in
  let cards := Map.values d in
  let dueCards := List.filter (fun c => due c <=? clock s) cards in
  let pool :=
    if (0 <? Z.of_nat (length dueCards)) then
      let dueCards := Array.sort (fun a b => due a - due b) dueCards in
      minDue <- first_due dueCards ;;
      Ok (List.filter (fun c => due c <=? minDue + 2) dueCards)
    else
      let cards := Array.sort (fun a b => due a - due b) cards in
      minDue <- first_due cards ;;
      Ok (List.filter (fun c => due c <=? minDue + 2) cards)
  in
  (pool <- pool ;;
   let idx := Math.floor (random * inject_Z (Z.of_nat (length pool))) in
   Ok (Array.at_ pool idx),
   s).

(** ** Recording an answer *)

Definition recordAnswer (hand_ position_ : string) (correct : bool) (s : state) : state :=
  let '(d, s) := ensureDeck s in
  let key := hand_ ++ "|" ++ position_ in
  match Map.get key d with
  | None => s
  | Some card =>
      let clock := clock s + 1 in
      (* Update stats *)
      let stats := loadStats (storage s) in
      let stats :=
        if correct then
          let currentStreak := currentStreak stats + 1 in
          {| totalReviews := totalReviews stats + 1;
             correctReviews := correctReviews stats + 1;
             currentStreak := currentStreak;
             bestStreak := if currentStreak >? bestStreak stats
                           then currentStreak else bestStreak stats |}
        else
          {| totalReviews := totalReviews stats + 1;
             correctReviews := correctReviews stats;
             currentStreak := 0;
             bestStreak := bestStreak stats |} in
      let storage := saveStats stats (storage s) in
      (* SM-2 inspired algorithm *)
      let '(repetitions, interval, ease) :=
        if correct then
          let repetitions := repetitions card + 1 in
          let interval :=
            if repetitions =? 1 then 1
            else if repetitions =? 2 then 3
            else Math.round (inject_Z (interval card) * ease card) in
          (repetitions, interval, Math.max 1.3 (ease card + 0.1))
        else
          (0, 0, Math.max 1.3 (ease card - 0.3)) in
      let card :=
        {| hand := hand card;
           position := position card;
           interval := interval;
           ease := ease;
           repetitions := repetitions;
           due := clock + interval;
           lastSeen := clock |} in
      let d := Map.set key card d in
      let storage := saveDeck d storage in
      {| deck := Some d; clock := clock; storage := storage |}
  end.

(** ** Statistics, reset and reload *)

Definition getStats (s : state) : Stats := loadStats (storage s).

Definition resetProgress (s : state) : state :=
  {| deck := deck s; clock := clock s;
     storage := {| STORAGE_KEY := None; STATS_KEY := None |} |}.

Definition reloadDeck (s : state) : state :=
  {| deck := None; clock := 0; storage := storage s |}.

(** ** Mastery *)

(** [getMasteryPercent]: the share of the cards with three repetitions
    or more, in percent, the quotient and the product taken exactly.  On
    an empty deck the quotient is [0 / 0], which is NaN, and so is the
    result: [None]. *)
Definition getMasteryPercent (s : state) : option Z * state :=
  let '(d, s) := ensureDeck s in
  let cards := Map.values d in
  let mastered := length (List.filter (fun c => repetitions c >=? 3) cards) in
  (if Nat.eqb (length cards) 0 then None
   else Some (Math.round
                (inject_Z (Z.of_nat mastered) / inject_Z (Z.of_nat (length cards)) * 100)),
   s).

(** * The storage as the runtime holds it

    TypeScript's types are erased: [JSON.parse] returns whatever value the
    stored text denotes, and [loadStats] and [loadDeck] hand it on
    unchecked.  [Raw] embeds the two loaders over arbitrary stored texts;
    [runtime] relates the storage of the engine above, whose texts have the
    declared types, to it. *)

Module Raw.

(** The values JSON texts denote. *)
#[warnings="-register-all"]
Inductive json :=
  | JNull
  | JBool (b : bool)
  | JNumber (q : Q)
  | JString (s : string)
  | JArray (elements : list json)
  | JObject (properties : list (string * json)).

Definition STORAGE_KEY : string := "poker-srs-state".
Definition STATS_KEY : string := "poker-srs-stats".

(** [localStorage]: string keys, string values. *)
Abbreviation storage := (gmap string (text json)).

(** *** The values of the engine's records *)

Definition integer (z : Z) : json := JNumber (inject_Z z).

Definition Stats_to_json (s : Stats) : json :=
  JObject [ ("totalReviews", integer (totalReviews s));
            ("correctReviews", integer (correctReviews s));
            ("currentStreak", integer (currentStreak s));
            ("bestStreak", integer (bestStreak s)) ].

Definition CardState_to_json (cs : CardState) : json :=
  JObject [ ("hand", JString (hand cs));
            ("position", JString (position cs));
            ("interval", integer (interval cs));
            ("ease", JNumber (ease cs));
            ("repetitions", integer (repetitions cs));
            ("due", integer (due cs));
            ("lastSeen", integer (lastSeen cs)) ].

Definition Deck_to_json (d : Deck) : Map.t json :=
  map (fun e => (fst e, CardState_to_json (snd e))) d.

(** Reading a value back at the declared type: [None] when it does not
    have the shape. *)
Definition as_integer (v : option json) : option Z :=
  match v with
  | Some (JNumber q) =>
      if Qeq_bool q (inject_Z (Qfloor q)) then Some (Qfloor q) else None
  | _ => None
  end.

Definition as_number (v : option json) : option Q :=
  match v with
  | Some (JNumber q) => Some q
  | _ => None
  end.

Definition as_string (v : option json) : option string :=
  match v with
  | Some (JString s) => Some s
  | _ => None
  end.

Definition Stats_of_json (v : json) : option Stats :=
  match v with
  | JObject ps =>
      match as_integer (Map.get "totalReviews" ps),
            as_integer (Map.get "correctReviews" ps),
            as_integer (Map.get "currentStreak" ps),
            as_integer (Map.get "bestStreak" ps) with
      | Some t, Some c, Some s, Some b =>
          Some {| totalReviews := t; correctReviews := c;
                  currentStreak := s; bestStreak := b |}
      | _, _, _, _ => None
      end
  | _ => None
  end.

Definition CardState_of_json (v : json) : option CardState :=
  match v with
  | JObject ps =>
      match as_string (Map.get "hand" ps), as_string (Map.get "position" ps),
            as_integer (Map.get "interval" ps), as_number (Map.get "ease" ps),
            as_integer (Map.get "repetitions" ps), as_integer (Map.get "due" ps),
            as_integer (Map.get "lastSeen" ps) with
      | Some h, Some p, Some i, Some e, Some r, Some d, Some l =>
          Some {| hand := h; position := p; interval := i; ease := e;
                  repetitions := r; due := d; lastSeen := l |}
      | _, _, _, _, _, _, _ => None
      end
  | _ => None
  end.

(** *** Statistics *)

(** The [try] block ends in a value returned from inside it
    ([Ok (Some v)]), by falling through ([Ok None]) or in an exception;
    the last two reach [return defaultStats()]. *)
Definition loadStats (ls : storage) : js json :=
  let attempt :=
    match ls !! STATS_KEY with
    | Some raw =>
        if truthy raw then (v <- JSON.parse raw ;; Ok (Some v)) else Ok None
    | None => Ok None
    end in
  match attempt with
  | Ok (Some v) => Ok v
  | Ok None | Throw _ => Ok (Stats_to_json defaultStats)
  end.

Definition saveStats (s : Stats) (ls : storage) : storage :=
  <[STATS_KEY := JSON.stringify (Stats_to_json s)]> ls.

(** *** The deck *)

(** [for (const x of v)]: arrays and strings can be iterated, a string by
    its characters; anything else a JSON text denotes cannot. *)
Definition iterate (v : json) : js (list json) :=
  match v with
  | JArray l => Ok l
  | JString s => Ok (map (fun ch => JString (String ch "")) (list_ascii_of_string s))
  | _ => Throw TypeError
  end.

(** [v.hand] and [v.position]: a TypeError on null, the own property of an
    object, [undefined] ([None]) otherwise (no prototype defines the two
    names). *)
Definition get_property (v : json) (name : string) : js (option json) :=
  match v with
  | JNull => Throw TypeError
  | JObject ps => Ok (Map.get name ps)
  | _ => Ok None
  end.

Section Coercion.

(** The runtime's conversion of a number to a string, needed only for an
    entry that has a number where a name is expected. *)
Variable Number_toString : Q -> string.

(** The conversion to string a template literal applies.  An array joins
    its elements with commas, null elements as empty strings.  An object
    gives ["[object Object]"], unless an own property hides
    [Object.prototype.toString]: no value of a JSON text can be called, and
    the conversion ends in a TypeError. *)
Fixpoint ToString (v : json) : js string :=
  match v with
  | JNull => Ok "null"
  | JBool true => Ok "true"
  | JBool false => Ok "false"
  | JNumber q => Ok (Number_toString q)
  | JString s => Ok s
  | JArray l =>
      let element x :=
        match x with
        | JNull => Ok ""
        | _ => ToString x
        end in
      (fix join (l : list json) : js string :=
         match l with
         | [] => Ok ""
         | [x] => element x
         | x :: l' => a <- element x ;; b <- join l' ;; Ok (a ++ "," ++ b)
         end) l
  | JObject ps =>
      if Map.has "toString" ps then Throw TypeError else Ok "[object Object]"
  end.

Definition ToString_property (v : option json) : js string :=
  match v with
  | None => Ok "undefined"
  | Some v => ToString v
  end.

(** The key [`${cs.hand}|${cs.position}`]. *)
Definition key_of (cs : json) : js string :=
  h <- get_property cs "hand" ;;
  h <- ToString_property h ;;
  p <- get_property cs "position" ;;
  p <- ToString_property p ;;
  Ok (h ++ "|" ++ p).

(** The loop [for (const cs of arr) map.set(key, cs)]. *)
Fixpoint for_of (arr : list json) (map : Map.t json) : js (Map.t json) :=
  match arr with
  | [] => Ok map
  | cs :: arr' =>
      key <- key_of cs ;;
      for_of arr' (Map.set key cs map)
  end.

Definition loadDeck (ls : storage) : js (Map.t json) :=
  let attempt :=
    match ls !! STORAGE_KEY with
    | Some raw =>
        if truthy raw then
          (arr <- JSON.parse raw ;;
           arr <- iterate arr ;;
           map <- for_of arr Map.empty ;;
           Ok (Some map))
        else Ok None
    | None => Ok None
    end in
  match attempt with
  | Ok (Some map) => Ok map
  | Ok None | Throw _ => Ok Map.empty
  end.

End Coercion.

Definition saveDeck (d : Deck) (ls : storage) : storage :=
  <[STORAGE_KEY := JSON.stringify (JArray (map CardState_to_json (Map.values d)))]> ls.

End Raw.

(** The typed storage, as the runtime holds it. *)
Definition runtime_text {A} (to_json : A -> Raw.json) (raw : text A) : text Raw.json :=
  match raw with
  | Empty => Empty
  | Garbage => Garbage
  | Json a => Json (to_json a)
  end.

Definition setItem (key : string) (item : option (text Raw.json)) (ls : Raw.storage)
  : Raw.storage :=
  match item with
  | Some raw => <[key := raw]> ls
  | None => ls
  end.

Definition runtime (ls : localStorage) : Raw.storage :=
  setItem Raw.STORAGE_KEY
    (option_map (runtime_text (fun arr => Raw.JArray (map Raw.CardState_to_json arr)))
                (STORAGE_KEY ls))
    (setItem Raw.STATS_KEY
       (option_map (runtime_text Raw.Stats_to_json) (STATS_KEY ls)) ∅).

(** * Binary64 *)

(** The arithmetic the runtime performs on an ease: IEEE-754 binary64,
    here by the Standard Library's executable specification.  A decimal
    literal [n/d] is the nearest binary64 value, which the correctly
    rounded quotient of its two integers gives. *)
Module Binary64.

Definition prec : Z := 53.
Definition emax : Z := 1024.

Definition of_Z (z : Z) : spec_float := binary_normalize prec emax z 0 false.
Definition decimal (n d : Z) : spec_float := SFdiv prec emax (of_Z n) (of_Z d).

Definition add : spec_float -> spec_float -> spec_float := SFadd prec emax.
Definition sub : spec_float -> spec_float -> spec_float := SFsub prec emax.
Definition mul : spec_float -> spec_float -> spec_float := SFmul prec emax.

(** [Math.max] on two numbers neither of which is a zero. *)
Definition max (a b : spec_float) : spec_float :=
  match SFcompare a b with
  | Some Lt => b
  | Some _ => a
  | None => S754_nan
  end.

(** [Math.round] on a finite number: the floor of [x + 1/2], exactly. *)
Definition round (x : spec_float) : option Z :=
  match x with
  | S754_zero _ => Some 0
  | S754_finite s m e =>
      let n := if s then Z.neg m else Z.pos m in
      Some (if 0 <=? e then n * 2 ^ e else (2 * n + 2 ^ (- e)) / 2 ^ (1 - e))
  | _ => None
  end.

(** [a <= b], false on NaN as the runtime has it. *)
Definition le (a b : spec_float) : Prop := SFleb a b = true.

(** The literals 1.3, 0.1 and 0.3: mantissa and exponent of the nearest
    binary64 value. *)
Definition lit_1_3 : spec_float := S754_finite false 5854679515581645 (-52).
Definition lit_0_1 : spec_float := S754_finite false 7205759403792794 (-56).
Definition lit_0_3 : spec_float := S754_finite false 5404319552844595 (-54).

End Binary64.

(** * The application *)

(** ** Strings of the runtime *)

(** The string methods the components call.  A string of the model is a
    sequence of code units below 256, which covers every name of the
    catalog. *)
Module Str.

(** [s.endsWith(suffix)]. *)
Fixpoint endsWith (s suffix : string) : bool :=
  if String.eqb s suffix then true
  else match s with
       | EmptyString => false
       | String _ s' => endsWith s' suffix
       end.

(** [s.slice(start, end)], [end] omitted when [None]: a negative index
    counts from the end, and both are clamped to the string. *)
Definition slice (s : string) (start : Z) (end_ : option Z) : string :=
  let len := Z.of_nat (String.length s) in
  let clamp i := if i <? 0 then Z.max (len + i) 0 else Z.min i len in
  let from := clamp start in
  let to := match end_ with Some e => clamp e | None => len end in
  String.substring (Z.to_nat from) (Z.to_nat (Z.max (to - from) 0)) s.

(** [s[i]]: a string of one code unit, or [undefined] ([None]). *)
Definition index (s : string) (i : nat) : option string :=
  option_map (fun c => String c EmptyString) (String.get i s).

End Str.

(** ** The hand on screen (src/components/HandDisplay.tsx) *)

Module HandDisplay.

Inductive Suit := spade | heart | club | diamond.

Record Parsed := {
  rank1 : option string;
  rank2 : option string;
  type : string;
}.

Definition parseHand (hand_ : string) : Parsed :=
  let isSuited := Str.endsWith hand_ "s" in
  let isOffsuit := Str.endsWith hand_ "o" in
  let base := if isSuited || isOffsuit then Str.slice hand_ 0 (Some (-1)) else hand_ in
  let '(rank1, rank2) :=
    if Nat.eqb (String.length base) 2 then (Str.index base 0, Str.index base 1)
    else (Str.index base 0, Some (Str.slice base 1 None)) in
  let isPair :=
    match rank1, rank2 with
    | Some r1, Some r2 => String.eqb r1 r2
    | None, None => true
    | _, _ => false
    end in
  let type := if isPair then "pair" else if isSuited then "suited" else "offsuit" in
  {| rank1 := rank1; rank2 := rank2; type := type |}.

Definition getSuits (type_ : string) : Suit * Suit :=
  if String.eqb type_ "suited" then (spade, spade)
  else if String.eqb type_ "offsuit" then (spade, heart)
  else if String.eqb type_ "pair" then (spade, diamond)
  else (spade, heart).

(** The two cards [HandDisplay] draws: a rank and a suit each. *)
Definition cards (hand_ : string) : (option string * Suit) * (option string * Suit) :=
  let p := parseHand hand_ in
  let '(suit1, suit2) := getSuits (type p) in
  ((rank1 p, suit1), (rank2 p, suit2)).

End HandDisplay.

(** ** The trainer (src/App.tsx) *)

Module App.

Definition ACTIONS : list Action := [Fold; Call; Raise; ThreeBet].

Definition SUIT_SYMBOLS (suffix : string) : option string :=
  if String.eqb suffix "s" then Some "♠"
  else if String.eqb suffix "o" then Some "♦"
  else if String.eqb suffix "" then Some ""
  else None.

Record Formatted := {
  base : string;
  suffix : option string;
  isSuited : bool;
}.

Definition formatHand (hand_ : string) : Formatted :=
  let suffix :=
    if Str.endsWith hand_ "s" then "s"
    else if Str.endsWith hand_ "o" then "o" else "" in
  let base := if negb (String.eqb suffix "") then Str.slice hand_ 0 (Some (-1)) else hand_ in
  {| base := base; suffix := SUIT_SYMBOLS suffix; isSuited := String.eqb suffix "s" |}.

(** [expected.includes(action)]. *)
Definition Action_eqb (a b : Action) : bool :=
  match a, b with
  | Fold, Fold | Raise, Raise | Call, Call | ThreeBet, ThreeBet => true
  | _, _ => false
  end.

Definition includes (expected : list Action) (action : Action) : bool :=
  existsb (Action_eqb action) expected.

(** The cast [card.position as Position] checks nothing.  For a string
    that is none of the four positions, [entry.actions[position]] is
    [undefined] or a member of [Object.prototype], neither of which has a
    method [includes]: the call that follows throws a TypeError.  A hand
    the table does not list never reaches that lookup. *)
Definition Position_of_string (p : string) : option Position :=
  if String.eqb p "UTG" then Some UTG
  else if String.eqb p "Middle" then Some Middle
  else if String.eqb p "Cutoff" then Some Cutoff
  else if String.eqb p "Blinds" then Some Blinds
  else None.

Definition expected_includes (hand_ position_ : string) (action : Action)
  : js (list Action * bool) :=
  match Position_of_string position_ with
  | Some p =>
      let expected := getCorrectActions hand_ p in
      Ok (expected, includes expected action)
  | None =>
      match List.find (fun r => String.eqb (entry_hand r) hand_) RANGES with
      | None => Ok ([Fold], includes [Fold] action)
      | Some _ => Throw TypeError
      end
  end.

Record Feedback := {
  correct : bool;
  chosen : Action;
  expected : list Action;
}.

(** A call of one of the component's state setters, with its argument. *)
Inductive Update :=
  | setCard (card : option CardState)
  | setFeedback (feedback : option Feedback)
  | setMastery (mastery : option Z)
  | setStats (stats : Stats)
  | setShowConfirmReset (show : bool).

(** A handler of the component, as a function of the state variables it
    closes over and of the engine's state: the setters it called, in
    order, the exception that ended it if one did, and the state of the
    engine it leaves. *)
Record Outcome := {
  updates : list Update;
  raised : option js_error;
}.

Definition returned (updates : list Update) : Outcome :=
  {| updates := updates; raised := None |}.

(** [drawCard], with the value of [Math.random()]. *)
Definition drawCard (random : Q) (s : state) : Outcome * state :=
  let '(next, s) := getNextCard random s in
  match next with
  | Throw e => ({| updates := [setFeedback None]; raised := Some e |}, s)
  | Ok next =>
      let '(mastery, s) := getMasteryPercent s in
      (returned [setFeedback None; setCard next; setMastery mastery; setStats (getStats s)],
       s)
  end.

(** [handleAction], for the values [card] and [feedback] of the state
    variables at the click. *)
Definition handleAction (card : option CardState) (feedback : option Feedback)
    (action : Action) (s : state) : Outcome * state :=
  match card, feedback with
  | None, _ | _, Some _ => (returned [], s)
  | Some card, None =>
      match expected_includes (hand card) (position card) action with
      | Throw e => ({| updates := []; raised := Some e |}, s)
      | Ok (expected, correct) =>
          let s := recordAnswer (hand card) (position card) correct s in
          let stats := getStats s in
          let '(mastery, s) := getMasteryPercent s in
          (returned [setFeedback (Some {| correct := correct; chosen := action;
                                         expected := expected |});
                     setStats stats; setMastery mastery], s)
      end
  end.

(** [handleReset]. *)
Definition handleReset (random : Q) (s : state) : Outcome * state :=
  let s := resetProgress s in
  let s := reloadDeck s in
  let '(drawn, s) := drawCard random s in
  ({| updates := setShowConfirmReset false :: updates drawn; raised := raised drawn |}, s).


End App.

(** * The vocabulary of the properties *)

(** The deck an operation works on, and the state it leaves, once
    [ensureDeck] has run. *)
Definition the_deck (s : state) : Deck := fst (ensureDeck s).
Definition loaded (s : state) : state := snd (ensureDeck s).

(** The card the module holds for an identity. *)
Definition card_of (hand_ position_ : string) (s : state) : option CardState :=
  Map.get (hand_ ++ "|" ++ position_) (the_deck s).

(** The card as [recordAnswer] leaves it: the branch of the answer, then
    the two assignments of [due] and [lastSeen], at the incremented
    clock [now]. *)
Definition answered (correct : bool) (card : CardState) (now : Z) : CardState :=
  let repetitions' := if correct then repetitions card + 1 else 0 in
  let interval' :=
    if correct then
      if repetitions' =? 1 then 1
      else if repetitions' =? 2 then 3
      else Math.round (inject_Z (interval card) * ease card)
    else 0 in
  {| hand := hand card;
     position := position card;
     interval := interval';
     ease := if correct then Math.max 1.3 (ease card + 0.1)
             else Math.max 1.3 (ease card - 0.3);
     repetitions := repetitions';
     due := now + interval';
     lastSeen := now |}.

(** The same identity answered with the answers of [l], in order. *)
Definition answers (hand_ position_ : string) (l : list bool) (s : state) : state :=
  fold_left (fun s correct => recordAnswer hand_ position_ correct s) l s.


(** The identity of a card, and of a combo of the catalog. *)
Definition identity (cs : CardState) : string * string := (hand cs, position cs).
Definition combo_identity (c : Combo) : string * string :=
  (combo_hand c, Position_string (combo_position c)).

(** The fields [ensureDeck] gives a new card. *)
Definition is_default (cs : CardState) : Prop :=
  interval cs = 0 /\ ease cs = 2.5%Q /\ repetitions cs = 0 /\
  due cs = 0 /\ lastSeen cs = -1.

(** The comparator [(a, b) => key(a) - key(b)], and the order it sorts by. *)
Definition by_key {A} (key : A -> Z) (a b : A) : Z := key a - key b.
Definition key_le {A} (key : A -> Z) (a b : A) : Prop := key a <= key b.

(** The deck of the specification's example: four cards, due at 5, 5, 6
    and 9. *)
Definition example_deck : Deck :=
  let card h d :=
    (h ++ "|UTG",
     {| hand := h; position := "UTG"; interval := 3; ease := 2.7;
        repetitions := 2; due := d; lastSeen := d - 3 |}) in
  [card "AA" 5; card "KK" 5; card "QQ" 6; card "JJ" 9].

Definition no_storage : localStorage := {| STORAGE_KEY := None; STATS_KEY := None |}.

(** The states the module goes through from a given storage when only
    [recordAnswer] is called. *)
Inductive reachable_from (ls : localStorage) : state -> Prop :=
  | reach_init : reachable_from ls (module_init ls)
  | reach_answer s hand_ position_ correct :
      reachable_from ls s ->
      reachable_from ls (recordAnswer hand_ position_ correct s).

(** From a fresh deck: nothing stored yet. *)
Definition reachable : state -> Prop := reachable_from no_storage.

(** What the update rule maintains on a card. *)
Definition card_ok (cs : CardState) : Prop :=
  (1.3 <= ease cs)%Q /\ 0 <= repetitions cs /\
  (1 <= repetitions cs -> 1 <= interval cs).

Definition deck_ok (d : Deck) : Prop := forall k cs, In (k, cs) d -> card_ok cs.

(** A deck of the engine is a [Map] (no key twice) whose keys are the
    identities of its cards. *)
Definition keyed (d : Deck) : Prop :=
  Forall (fun e => fst e = hand (snd e) ++ "|" ++ position (snd e)) d.

Definition is_map {V} (m : Map.t V) : Prop := List.NoDup (Map.keys m).

Definition deck_wf (d : Deck) : Prop := keyed d /\ is_map d.

(** A slot with nothing to parse: the key is absent, or its string is
    empty, or [JSON.parse] rejects it. *)
Definition unusable (item : option (text Raw.json)) : Prop :=
  item = None \/ item = Some Empty \/ item = Some Garbage.

(** A name that does not contain the separator of the key. *)
Definition bar_free (s : string) : Prop := ~ In "|"%char (list_ascii_of_string s).

(** The cards of a deck reached from a fresh deck are those of the
    catalog. *)
Definition catalog_deck (d : Deck) : Prop :=
  forall k cs, In (k, cs) d -> In (identity cs) (map combo_identity getAllCombos).

(** The statistics as [recordAnswer] leaves them. *)
Definition counted (correct : bool) (stats : Stats) : Stats :=
  if correct then
    {| totalReviews := totalReviews stats + 1;
       correctReviews := correctReviews stats + 1;
       currentStreak := currentStreak stats + 1;
       bestStreak := if currentStreak stats + 1 >? bestStreak stats
                     then currentStreak stats + 1 else bestStreak stats |}
  else
    {| totalReviews := totalReviews stats + 1;
       correctReviews := correctReviews stats;
       currentStreak := 0;
       bestStreak := bestStreak stats |}.

(** The order the four counters keep. *)
Definition stats_ok (stats : Stats) : Prop :=
  0 <= currentStreak stats <= bestStreak stats /\
  bestStreak stats <= correctReviews stats <= totalReviews stats.

(** A deck that has a card for every combo of the catalog. *)
Definition complete (d : Deck) : Prop :=
  forall c, In c getAllCombos -> Map.get (comboKey c) d <> None.

(** The card is mastered: the test of [getMasteryPercent]. *)
Definition mastered (cs : CardState) : bool := repetitions cs >=? 3.


Strategy 100 [addMissing getAllCombos].
Arguments the_deck : simpl never.
Arguments loaded : simpl never.
Arguments addMissing : simpl never.
Arguments clockBootstrap : simpl never.
Arguments loadDeck : simpl never.
Arguments loadStats : simpl never.

(** * Properties *)

(** ** Maps *)

Section MapFacts.
Context {V : Type}.
Implicit Types (m : Map.t V) (k : string) (v : V).

Lemma get_set_eq k v m : Map.get k (Map.set k v m) = Some v.
Proof.
  induction m as [|[k' v'] m IH]; simpl.
  - now rewrite String.eqb_refl.
  - destruct (String.eqb k' k) eqn:E; simpl; rewrite E; auto.
Qed.

Lemma get_set_ne k k' v m : k <> k' -> Map.get k' (Map.set k v m) = Map.get k' m.
Proof.
  intros Hne. induction m as [|[k0 v0] m IH]; simpl.
  - destruct (String.eqb_spec k k'); congruence.
  - destruct (String.eqb_spec k0 k) as [->|]; simpl.
    + destruct (String.eqb_spec k k'); congruence.
    + now rewrite IH.
Qed.

Lemma get_Some_In k v m : Map.get k m = Some v -> In (k, v) m.
Proof.
  induction m as [|[k0 v0] m IH]; simpl; [discriminate|].
  destruct (String.eqb_spec k0 k) as [->|]; intros H.
  - left. congruence.
  - right. auto.
Qed.

Lemma get_None_keys k m : Map.get k m = None <-> ~ In k (Map.keys m).
Proof.
  induction m as [|[k0 v0] m IH]; simpl; [tauto|].
  destruct (String.eqb_spec k0 k) as [->|]; split; intros H.
  - discriminate.
  - exfalso. apply H. now left.
  - intros [|]; [congruence|]. now apply IH.
  - apply IH. tauto.
Qed.

Lemma In_get k v m : List.NoDup (Map.keys m) -> In (k, v) m -> Map.get k m = Some v.
Proof.
  induction m as [|[k0 v0] m IH]; simpl; [tauto|].
  intros Hnd [Heq|Hin]; inversion Hnd as [|? ? Hnotin Hnd']; subst.
  - inversion Heq; subst. now rewrite String.eqb_refl.
  - destruct (String.eqb_spec k0 k) as [->|]; [|auto].
    exfalso. apply Hnotin. change k with (fst (k, v)). now apply in_map.
Qed.

(** Replacing the value of a present key keeps the keys and their order. *)
Lemma keys_set_present k v m :
  Map.get k m <> None -> Map.keys (Map.set k v m) = Map.keys m.
Proof.
  induction m as [|[k0 v0] m IH]; simpl; [congruence|].
  destruct (String.eqb_spec k0 k) as [->|]; simpl; intros H; [reflexivity|].
  now rewrite IH.
Qed.

Lemma keys_set_absent k v m :
  Map.get k m = None -> Map.keys (Map.set k v m) = (Map.keys m ++ [k])%list.
Proof.
  induction m as [|[k0 v0] m IH]; simpl; [reflexivity|].
  destruct (String.eqb_spec k0 k) as [->|]; simpl; intros H; [discriminate|].
  now rewrite IH.
Qed.

Lemma set_absent k v m : Map.get k m = None -> Map.set k v m = (m ++ [(k, v)])%list.
Proof.
  induction m as [|[k0 v0] m IH]; simpl; [reflexivity|].
  destruct (String.eqb_spec k0 k) as [->|]; simpl; intros H; [discriminate|].
  now rewrite IH.
Qed.

(** Every entry of the updated map is the new one or an old one. *)
Lemma In_set k v m k' v' :
  In (k', v') (Map.set k v m) -> (k' = k /\ v' = v) \/ In (k', v') m.
Proof.
  induction m as [|[k0 v0] m IH]; simpl.
  - intros [H|[]]. inversion H. auto.
  - destruct (String.eqb_spec k0 k) as [->|]; simpl; intros [H|H].
    + inversion H. auto.
    + auto.
    + auto.
    + destruct (IH H); auto.
Qed.

End MapFacts.

(** ** What an answer does to a card *)

Lemma ensureDeck_loaded s : ensureDeck s = (the_deck s, loaded s).
Proof. unfold the_deck, loaded. now destruct (ensureDeck s). Qed.

Lemma loaded_deck s : deck (loaded s) = Some (the_deck s).
Proof.
  unfold loaded, the_deck, ensureDeck.
  destruct (deck s) eqn:E; cbn [fst snd deck]; auto.
Qed.

Lemma loaded_storage s : storage (loaded s) = storage s.
Proof. unfold loaded, ensureDeck. now destruct (deck s). Qed.

Lemma ensureDeck_unloaded s :
  deck s = None ->
  the_deck s = addMissing getAllCombos (loadDeck (storage s)) /\
  clock (loaded s) = clockBootstrap (Map.values (the_deck s)) (clock s) /\
  storage (loaded s) = storage s.
Proof.
  intros H. unfold the_deck, loaded, ensureDeck. rewrite H.
  cbv beta iota zeta delta [fst snd clock deck storage]. repeat split.
Qed.

Lemma ensureDeck_idem s d : deck s = Some d -> ensureDeck s = (d, s).
Proof. intros H. unfold ensureDeck. now rewrite H. Qed.

Lemma the_deck_Some s d : deck s = Some d -> the_deck s = d /\ loaded s = s.
Proof. intros H. unfold the_deck, loaded. now rewrite (ensureDeck_idem _ _ H). Qed.

(** Loading twice is loading once. *)
Lemma loaded_loaded s : loaded (loaded s) = loaded s.
Proof. now destruct (the_deck_Some _ _ (loaded_deck s)). Qed.

(** [recordAnswer] on an identity the deck holds. *)
Lemma recordAnswer_present hand_ position_ correct s card :
  card_of hand_ position_ s = Some card ->
  let now := clock (loaded s) + 1 in
  let s' := recordAnswer hand_ position_ correct s in
  clock s' = now /\
  deck s' = Some (Map.set (hand_ ++ "|" ++ position_)
                          (answered correct card now) (the_deck s)).
Proof.
  unfold card_of. intros Hget. unfold recordAnswer.
  rewrite ensureDeck_loaded, Hget.
  destruct correct; split; reflexivity.
Qed.

Lemma recordAnswer_card hand_ position_ correct s card :
  card_of hand_ position_ s = Some card ->
  card_of hand_ position_ (recordAnswer hand_ position_ correct s)
  = Some (answered correct card (clock (loaded s) + 1)).
Proof.
  intros Hget.
  destruct (recordAnswer_present hand_ position_ correct s card Hget) as [_ Hd].
  unfold card_of at 1.
  destruct (the_deck_Some _ _ Hd) as [-> _].
  apply get_set_eq.
Qed.

Lemma recordAnswer_clock hand_ position_ correct s card :
  card_of hand_ position_ s = Some card ->
  clock (loaded (recordAnswer hand_ position_ correct s)) = clock (loaded s) + 1.
Proof.
  intros Hget.
  destruct (recordAnswer_present hand_ position_ correct s card Hget) as [Hc Hd].
  destruct (the_deck_Some _ _ Hd) as [_ ->]. exact Hc.
Qed.

(** [recordAnswer] on an identity the deck does not hold only loads the
    deck, if that was still to do. *)
Lemma recordAnswer_absent hand_ position_ correct s :
  card_of hand_ position_ s = None ->
  recordAnswer hand_ position_ correct s = loaded s.
Proof.
  unfold card_of. intros Hget. unfold recordAnswer.
  now rewrite ensureDeck_loaded, Hget.
Qed.

(** ** Arithmetic of the update rule *)

Lemma max_lower a x : (a <= Math.max a x)%Q.
Proof.
  unfold Math.max. destruct (Qle_bool a x) eqn:E.
  - now apply Qle_bool_iff.
  - apply Qle_refl.
Qed.



(** Rounding keeps an integer lower bound. *)
Lemma round_lower (n : Z) x : (inject_Z n <= x)%Q -> n <= Math.round x.
Proof.
  intros H. unfold Math.round.
  rewrite <- (Qfloor_Z n). apply Qfloor_resp_le.
  apply Qle_trans with x; [exact H|].
  rewrite <- (Qplus_0_r x) at 1. apply Qplus_le_r. discriminate.
Qed.

(** The three fields the answer's branch decides, read off [answered]. *)
Lemma answered_correct card now :
  let c := answered true card now in
  repetitions c = repetitions card + 1 /\
  interval c = (if repetitions card + 1 =? 1 then 1
                else if repetitions card + 1 =? 2 then 3
                else Math.round (inject_Z (interval card) * ease card)) /\
  ease c = Math.max 1.3 (ease card + 0.1) /\
  due c = now + interval c /\ lastSeen c = now /\
  hand c = hand card /\ position c = position card.
Proof. repeat split. Qed.

Lemma answered_incorrect card now :
  let c := answered false card now in
  repetitions c = 0 /\ interval c = 0 /\
  ease c = Math.max 1.3 (ease card - 0.3) /\
  due c = now /\ lastSeen c = now /\
  hand c = hand card /\ position c = position card.
Proof. repeat split. cbn. lia. Qed.

(** ** C1: three correct answers from a new card *)



(** ** C3: a miss resets the card *)

(** C3.  In every state, [recordAnswer] with [correct = false] on an
    identity the deck holds sets that card's repetitions to 0, its
    interval to 0 and its ease to [max(1.3, ease - 0.3)], and leaves the
    card due at once: its [due] and its [lastSeen] are both the clock as
    the call incremented it. *)
Theorem miss_resets hand_ position_ s card :
  card_of hand_ position_ s = Some card ->
  let s' := recordAnswer hand_ position_ false s in
  clock s' = clock (loaded s) + 1 /\
  exists card',
    card_of hand_ position_ s' = Some card' /\
    repetitions card' = 0 /\
    interval card' = 0 /\
    ease card' = Math.max 1.3 (ease card - 0.3) /\
    due card' = clock s' /\
    lastSeen card' = clock s' /\
    due card' <= clock s'.
Proof.
  intros Hget s'.
  destruct (recordAnswer_present _ _ false _ _ Hget) as [Hc _]. fold s' in Hc.
  split; [exact Hc|].
  exists (answered false card (clock (loaded s) + 1)).
  split; [now apply recordAnswer_card|].
  rewrite Hc.
  destruct (answered_incorrect card (clock (loaded s) + 1))
    as (Hr & Hi & He & Hd & Hl & _).
  repeat split; auto. rewrite Hd. lia.
Qed.

Lemma miss_resets_witness :
  let s := recordAnswer "KK" "Blinds" true
             (module_init {| STORAGE_KEY := None; STATS_KEY := None |}) in
  let s' := recordAnswer "KK" "Blinds" false s in
  clock s' = 2 /\
  exists card',
    card_of "KK" "Blinds" s' = Some card' /\
    repetitions card' = 0 /\
    interval card' = 0 /\
    ease card' = Math.max 1.3 (Math.max 1.3 (2.5 + 0.1) - 0.3) /\
    due card' = clock s' /\
    lastSeen card' = clock s' /\
    due card' <= clock s'.
Proof.
  apply (miss_resets "KK" "Blinds"
           (recordAnswer "KK" "Blinds" true
              (module_init {| STORAGE_KEY := None; STATS_KEY := None |}))
           {| hand := "KK"; position := "Blinds"; interval := 1;
              ease := Math.max 1.3 (2.5 + 0.1); repetitions := 1;
              due := 2; lastSeen := 1 |}).
  vm_compute. reflexivity.
Defined.

(** ** C4: the ease floor *)

Lemma answered_ease_floor correct card now :
  (1.3 <= ease (answered correct card now))%Q.
Proof. destruct correct; apply max_lower. Qed.






(** ** C5: an unknown identity *)

(** C5.  In every state with a deck, [recordAnswer] on an identity the
    deck has no entry for returns the state as it was: the clock, the
    deck and each of its cards, and both stored items, hence the
    statistics [getStats] reads.  It returns normally.  (If the deck was
    still to be loaded, the call loads it and does nothing else: the deck
    and the clock the next operation finds are those it would have found
    without the call, and the storage is untouched in either case.) *)
Theorem unknown_identity_noop hand_ position_ correct s :
  card_of hand_ position_ s = None ->
  (forall d, deck s = Some d -> recordAnswer hand_ position_ correct s = s) /\
  recordAnswer hand_ position_ correct s = loaded s /\
  the_deck (recordAnswer hand_ position_ correct s) = the_deck s /\
  clock (loaded (recordAnswer hand_ position_ correct s)) = clock (loaded s) /\
  storage (recordAnswer hand_ position_ correct s) = storage s /\
  getStats (recordAnswer hand_ position_ correct s) = getStats s.
Proof.
  intros Hget.
  rewrite (recordAnswer_absent _ _ _ _ Hget).
  repeat split.
  - intros d Hd. now destruct (the_deck_Some _ _ Hd).
  - now destruct (the_deck_Some _ _ (loaded_deck s)).
  - now rewrite loaded_loaded.
  - apply loaded_storage.
  - unfold getStats. now rewrite loaded_storage.
Qed.

Lemma unknown_identity_noop_witness :
  let s := recordAnswer "AA" "UTG" true
             (module_init {| STORAGE_KEY := None; STATS_KEY := None |}) in
  (forall d, deck s = Some d -> recordAnswer "72o" "UTG" true s = s) /\
  recordAnswer "72o" "UTG" true s = loaded s /\
  the_deck (recordAnswer "72o" "UTG" true s) = the_deck s /\
  clock (loaded (recordAnswer "72o" "UTG" true s)) = clock (loaded s) /\
  storage (recordAnswer "72o" "UTG" true s) = storage s /\
  getStats (recordAnswer "72o" "UTG" true s) = getStats s.
Proof.
  apply (unknown_identity_noop "72o" "UTG" true
           (recordAnswer "AA" "UTG" true
             (module_init {| STORAGE_KEY := None; STATS_KEY := None |}))).
  vm_compute. reflexivity.
Defined.

(** ** C6: the clock after a load *)










(** ** C7: reset, reload, load *)

(** The catalog names 128 identities, no two with the same key. *)
Lemma catalog_keys_distinct : List.NoDup (map comboKey getAllCombos).
Proof.
  assert (E : nodup string_dec (map comboKey getAllCombos) = map comboKey getAllCombos)
    by (vm_compute; reflexivity).
  rewrite <- E. apply NoDup_nodup.
Qed.

Lemma catalog_identities_distinct : List.NoDup (map combo_identity getAllCombos).
Proof.
  apply (NoDup_map_inv (fun i : string * string => fst i ++ "|" ++ snd i)).
  rewrite map_map. exact catalog_keys_distinct.
Qed.

(** C7.  After [resetProgress] (which removes both stored items) and
    [reloadDeck], the next [ensureDeck] builds a deck that holds, for each
    identity of the catalog, exactly one card, with the fields of a new
    card ([interval = 0], [ease = 2.5], [repetitions = 0], [due = 0],
    [lastSeen = -1]); the clock is 0 and [getStats] returns the all-zero
    statistics. *)
Theorem reset_clears_everything (s : state) :
  let s0 := reloadDeck (resetProgress s) in
  let d := the_deck s0 in
  d = map (fun c => (comboKey c, newCard c)) getAllCombos /\
  map identity (Map.values d) = map combo_identity getAllCombos /\
  List.NoDup (map identity (Map.values d)) /\
  Forall is_default (Map.values d) /\
  Forall (fun c => Map.get (comboKey c) d = Some (newCard c)) getAllCombos /\
  clock (loaded s0) = 0 /\
  getStats (loaded s0) = defaultStats /\
  storage (loaded s0) = {| STORAGE_KEY := None; STATS_KEY := None |}.
Proof.
  intros s0 d.
  assert (Hd : d = map (fun c => (comboKey c, newCard c)) getAllCombos)
    by (vm_compute; reflexivity).
  assert (Hid : map identity (Map.values d) = map combo_identity getAllCombos)
    by (rewrite Hd; vm_compute; reflexivity).
  split; [exact Hd|].
  split; [exact Hid|].
  split; [rewrite Hid; exact catalog_identities_distinct|].
  split.
  { rewrite Hd. unfold Map.values. rewrite map_map. cbn [snd].
    apply List.Forall_forall. intros cs Hin. apply in_map_iff in Hin.
    destruct Hin as (c & <- & _). repeat split. }
  split.
  { apply List.Forall_forall. intros c Hin. apply In_get.
    - rewrite Hd. unfold Map.keys. rewrite map_map. cbn [fst].
      exact catalog_keys_distinct.
    - rewrite Hd. now apply (in_map (fun c => (comboKey c, newCard c))). }
  split; [vm_compute; reflexivity|].
  split; vm_compute; reflexivity.
Qed.

(** ** C2: the card picked is in the due window *)

Section SortFacts.
Context {A : Type} (key : A -> Z).

Lemma insert_perm compare a (l : list A) :
  Permutation (a :: l) (Array.insert compare a l).
Proof.
  induction l as [|b l IH]; cbn [Array.insert]; [reflexivity|].
  destruct (compare a b >? 0); [|reflexivity].
  rewrite perm_swap. now apply perm_skip.
Qed.

Lemma sort_perm compare (l : list A) : Permutation l (Array.sort compare l).
Proof.
  induction l as [|a l IH]; cbn [Array.sort fold_right]; [reflexivity|].
  fold (Array.sort compare l). rewrite <- insert_perm. now apply perm_skip.
Qed.

Lemma insert_sorted a (l : list A) :
  StronglySorted (key_le key) l -> StronglySorted (key_le key) (Array.insert (by_key key) a l).
Proof.
  induction 1 as [|b l Hs IH Hb]; cbn [Array.insert].
  - repeat constructor.
  - unfold by_key at 1. destruct (Z.gtb_spec (key a - key b) 0) as [Hgt|Hle].
    + constructor; [exact IH|].
      rewrite <- insert_perm. constructor; [unfold key_le; lia|exact Hb].
    + constructor; [now constructor|].
      constructor; [unfold key_le; lia|].
      eapply List.Forall_impl; [|exact Hb]. unfold key_le. intros; lia.
Qed.

Lemma sort_sorted (l : list A) : StronglySorted (key_le key) (Array.sort (by_key key) l).
Proof.
  induction l as [|a l IH]; cbn [Array.sort fold_right]; [constructor|].
  now apply insert_sorted.
Qed.

(** The first element of the sorted array has the least key of all. *)
Lemma sort_head_least (l : list A) a rest :
  Array.sort (by_key key) l = a :: rest ->
  In a l /\ forall b, In b l -> key a <= key b.
Proof.
  intros E. pose proof (sort_perm (by_key key) l) as Hp.
  pose proof (sort_sorted l) as Hs. rewrite E in Hp, Hs.
  split.
  - apply (Permutation_in a (Permutation_sym Hp)). now left.
  - intros b Hb. apply (Permutation_in b Hp) in Hb.
    inversion Hs as [|? ? _ Hall]; subst.
    destruct Hb as [->|Hb]; [lia|].
    rewrite List.Forall_forall in Hall. now apply Hall.
Qed.

End SortFacts.

(** [Math.floor(random * n)] is an index below [n]. *)
Lemma random_index (random : Q) (n : nat) :
  (0 <= random)%Q -> (random < 1)%Q -> (0 < n)%nat ->
  let idx := Math.floor (random * inject_Z (Z.of_nat n)) in
  0 <= idx < Z.of_nat n.
Proof.
  intros H0 H1 Hn idx. unfold idx, Math.floor.
  assert (Hn' : (0 < inject_Z (Z.of_nat n))%Q).
  { change (inject_Z 0 < inject_Z (Z.of_nat n))%Q. rewrite <- Zlt_Qlt. lia. }
  split.
  - rewrite <- (Qfloor_Z 0). apply Qfloor_resp_le.
    apply Qmult_le_0_compat; [exact H0|now apply Qlt_le_weak].
  - rewrite Zlt_Qlt.
    eapply Qle_lt_trans; [apply Qfloor_le|].
    rewrite <- (Qmult_1_l (inject_Z (Z.of_nat n))) at 2.
    now apply Qmult_lt_compat_r.
Qed.

Lemma at_In {A} (arr : list A) (i : Z) :
  0 <= i < Z.of_nat (length arr) ->
  exists a, Array.at_ arr i = Some a /\ In a arr.
Proof.
  intros [H0 H1]. unfold Array.at_.
  destruct (Z.ltb_spec i 0); [lia|].
  destruct (nth_error arr (Z.to_nat i)) as [a|] eqn:E.
  - exists a. split; [reflexivity|]. now apply nth_error_In in E.
  - apply nth_error_None in E. lia.
Qed.

(** The general statement of C2, for a loaded deck [d] at clock [now]. *)
Lemma next_card_due (random : Q) (d : Deck) (now : Z) (ls : localStorage) :
  let s := {| deck := Some d; clock := now; storage := ls |} in
  (0 <= random)%Q -> (random < 1)%Q ->
  (exists cs, In cs (Map.values d) /\ due cs <= now) ->
  exists card,
    getNextCard random s = (Ok (Some card), s) /\
    In card (Map.values d) /\
    due card <= now /\
    (forall cs, In cs (Map.values d) -> due cs <= now -> due card <= due cs + 2).
Proof.
  intros s H0 H1 (cs0 & Hin0 & Hdue0).
  unfold getNextCard. rewrite (ensureDeck_idem s d eq_refl).
  cbn [clock s].
  set (cards := Map.values d) in *.
  set (dueCards := List.filter (fun c => due c <=? now) cards).
  assert (Hcs0 : In cs0 dueCards).
  { apply filter_In. split; [exact Hin0|]. now apply Z.leb_le. }
  assert (Hlen : (0 <? Z.of_nat (length dueCards)) = true).
  { apply Z.ltb_lt. destruct dueCards; [destruct Hcs0|cbn; lia]. }
  rewrite Hlen.
  fold (by_key due).
  destruct (Array.sort (by_key due) dueCards) as [|c sorted] eqn:Esort.
  { exfalso. pose proof (sort_perm (by_key due) dueCards) as Hp.
    rewrite Esort in Hp. apply Permutation_sym, Permutation_nil in Hp.
    rewrite Hp in Hcs0. destruct Hcs0. }
  destruct (sort_head_least due dueCards c sorted Esort) as [Hc Hleast].
  change (first_due (c :: sorted)) with (Ok (due c)). cbn [js_bind].
  set (pool := List.filter (fun c1 => due c1 <=? due c + 2) (c :: sorted)).
  assert (Hpool : (0 < length pool)%nat).
  { unfold pool. cbn [List.filter].
    destruct (Z.leb_spec (due c) (due c + 2)); [cbn; lia|lia]. }
  destruct (at_In pool _ (random_index random _ H0 H1 Hpool)) as (card & Hat & Hin).
  exists card. rewrite Hat. split; [reflexivity|].
  apply filter_In in Hin. destruct Hin as [Hin Hwin]. apply Z.leb_le in Hwin.
  rewrite <- Esort in Hin.
  apply (Permutation_in card (Permutation_sym (sort_perm _ dueCards))) in Hin.
  apply filter_In in Hin. destruct Hin as [Hin Hnow]. apply Z.leb_le in Hnow.
  repeat split; auto.
  intros cs Hcs Hcsdue.
  assert (due c <= due cs); [|lia].
  apply Hleast. apply filter_In. split; [exact Hcs|]. now apply Z.leb_le.
Qed.



(** ** C10: after a correct answer the card is not due at once *)

Lemma product_lower (i : Z) (e : Q) :
  1 <= i -> (1.3 <= e)%Q -> (inject_Z 1 <= inject_Z i * e)%Q.
Proof.
  intros Hi He. destruct e as [p q]. unfold Qle in *. cbn in *. nia.
Qed.

Lemma answered_ok correct card now :
  card_ok card -> card_ok (answered correct card now).
Proof.
  intros (He & Hr & Hi). split; [apply answered_ease_floor|].
  destruct correct; cbn [answered repetitions interval]; [|split; lia].
  split; [lia|]. intros _.
  destruct (Z.eqb_spec (repetitions card + 1) 1); [lia|].
  destruct (Z.eqb_spec (repetitions card + 1) 2); [lia|].
  apply round_lower, product_lower; [apply Hi; lia|exact He].
Qed.

Lemma the_deck_loaded s : the_deck (loaded s) = the_deck s.
Proof. now destruct (the_deck_Some _ _ (loaded_deck s)). Qed.

Lemma new_deck_ok : deck_ok (the_deck (module_init no_storage)).
Proof.
  assert (E : the_deck (module_init no_storage)
              = map (fun c => (comboKey c, newCard c)) getAllCombos)
    by (vm_compute; reflexivity).
  rewrite E. intros k cs Hin. apply in_map_iff in Hin.
  destruct Hin as (c & Heq & _). inversion Heq; subst.
  repeat split; cbn; try lia. discriminate.
Qed.

Lemma reachable_deck_ok s : reachable s -> deck_ok (the_deck s).
Proof.
  induction 1 as [|s h p b Hs IH]; [exact new_deck_ok|].
  destruct (card_of h p s) as [card|] eqn:Hget.
  - destruct (recordAnswer_present h p b s card Hget) as [_ Hd].
    destruct (the_deck_Some _ _ Hd) as [-> _].
    intros k cs Hin. apply In_set in Hin. destruct Hin as [[_ ->]|Hin].
    + apply answered_ok. apply (IH (h ++ "|" ++ p)). now apply get_Some_In.
    + now apply (IH k).
  - rewrite (recordAnswer_absent _ _ _ _ Hget), the_deck_loaded. exact IH.
Qed.

(** C10.  In every state reached from a fresh deck by calls of
    [recordAnswer], answering a card of the deck correctly leaves it with
    an interval of at least 1, hence with [due > lastSeen]: it is not due
    at the tick it was answered.  Whatever the answer, [due >= lastSeen]
    holds afterwards, and the card is left with interval 0, or with
    [due = lastSeen], only by an incorrect answer. *)
Theorem correct_answer_pushes_due hand_ position_ s card :
  reachable s ->
  card_of hand_ position_ s = Some card ->
  (exists card',
     card_of hand_ position_ (recordAnswer hand_ position_ true s) = Some card' /\
     1 <= interval card' /\
     lastSeen card' < due card' /\
     clock (recordAnswer hand_ position_ true s) < due card') /\
  (forall correct, exists card',
     card_of hand_ position_ (recordAnswer hand_ position_ correct s) = Some card' /\
     lastSeen card' <= due card' /\
     (interval card' = 0 -> correct = false) /\
     (due card' = lastSeen card' -> correct = false)).
Proof.
  intros Hs Hget.
  assert (Hok : card_ok card).
  { apply (reachable_deck_ok s Hs (hand_ ++ "|" ++ position_)).
    now apply get_Some_In. }
  set (now := clock (loaded s) + 1).
  assert (Hint : 1 <= interval (answered true card now)).
  { destruct (answered_ok true card now Hok) as (_ & _ & Hi).
    apply Hi. cbn. destruct Hok as (_ & Hr & _). lia. }
  split.
  - exists (answered true card now).
    split; [now apply recordAnswer_card|].
    destruct (recordAnswer_present _ _ true _ _ Hget) as [-> _]. fold now.
    destruct (answered_correct card now) as (_ & _ & _ & Hd & Hl & _).
    rewrite Hd, Hl. repeat split; lia.
  - intros correct. exists (answered correct card now).
    split; [now apply recordAnswer_card|].
    destruct correct.
    + destruct (answered_correct card now) as (_ & _ & _ & Hd & Hl & _).
      rewrite Hd, Hl. repeat split; intros; lia.
    + destruct (answered_incorrect card now) as (_ & _ & _ & Hd & Hl & _).
      rewrite Hd, Hl. repeat split; intros; lia.
Qed.

Lemma correct_answer_pushes_due_witness :
  let s := recordAnswer "QQ" "Cutoff" false
             (recordAnswer "QQ" "Cutoff" true (module_init no_storage)) in
  (exists card',
     card_of "QQ" "Cutoff" (recordAnswer "QQ" "Cutoff" true s) = Some card' /\
     1 <= interval card' /\
     lastSeen card' < due card' /\
     clock (recordAnswer "QQ" "Cutoff" true s) < due card') /\
  (forall correct, exists card',
     card_of "QQ" "Cutoff" (recordAnswer "QQ" "Cutoff" correct s) = Some card' /\
     lastSeen card' <= due card' /\
     (interval card' = 0 -> correct = false) /\
     (due card' = lastSeen card' -> correct = false)).
Proof.
  apply (correct_answer_pushes_due "QQ" "Cutoff"
           (recordAnswer "QQ" "Cutoff" false
              (recordAnswer "QQ" "Cutoff" true (module_init no_storage)))
           {| hand := "QQ"; position := "Cutoff"; interval := 0;
              ease := Math.max 1.3 (Math.max 1.3 (2.5 + 0.1) - 0.3);
              repetitions := 0; due := 2; lastSeen := 2 |}).
  - apply reach_answer, reach_answer, reach_init.
  - vm_compute. reflexivity.
Defined.

(** ** The typed loaders are the runtime's, on texts of the declared types *)

Lemma keys_differ : Raw.STORAGE_KEY <> Raw.STATS_KEY.
Proof. discriminate. Qed.

Lemma runtime_stats ls :
  runtime ls !! Raw.STATS_KEY
  = option_map (runtime_text Raw.Stats_to_json) (STATS_KEY ls).
Proof.
  unfold runtime, setItem.
  destruct (STORAGE_KEY ls), (STATS_KEY ls); cbn [option_map];
    rewrite ?(lookup_insert_ne _ _ _ _ keys_differ), ?lookup_insert_eq, ?lookup_empty;
    reflexivity.
Qed.

Lemma runtime_deck ls :
  runtime ls !! Raw.STORAGE_KEY
  = option_map (runtime_text (fun arr => Raw.JArray (map Raw.CardState_to_json arr)))
               (STORAGE_KEY ls).
Proof.
  unfold runtime, setItem.
  destruct (STORAGE_KEY ls), (STATS_KEY ls); cbn [option_map];
    rewrite ?lookup_insert_eq,
            ?(lookup_insert_ne _ _ _ _ (not_eq_sym keys_differ)), ?lookup_empty;
    reflexivity.
Qed.

Lemma runtime_saveStats s ls : runtime (saveStats s ls) = Raw.saveStats s (runtime ls).
Proof.
  unfold runtime, saveStats, Raw.saveStats, setItem. cbn [STORAGE_KEY STATS_KEY option_map].
  destruct (STORAGE_KEY ls), (STATS_KEY ls); cbn [option_map runtime_text];
    rewrite ?(insert_insert_ne _ _ _ _ _ keys_differ), ?insert_insert_eq,
            ?(insert_insert_ne _ _ _ _ _ (not_eq_sym keys_differ));
    reflexivity.
Qed.

Lemma runtime_saveDeck d ls : runtime (saveDeck d ls) = Raw.saveDeck d (runtime ls).
Proof.
  unfold runtime, saveDeck, Raw.saveDeck, setItem. cbn [STORAGE_KEY STATS_KEY option_map].
  destruct (STORAGE_KEY ls), (STATS_KEY ls); cbn [option_map runtime_text];
    rewrite ?insert_insert_eq; reflexivity.
Qed.

Lemma loadStats_runtime ls :
  Raw.loadStats (runtime ls) = Ok (Raw.Stats_to_json (loadStats ls)).
Proof.
  unfold Raw.loadStats, loadStats. rewrite runtime_stats.
  destruct (STATS_KEY ls) as [[| |s]|]; reflexivity.
Qed.

Lemma Deck_to_json_set k cs (d : Deck) :
  Raw.Deck_to_json (Map.set k cs d) = Map.set k (Raw.CardState_to_json cs) (Raw.Deck_to_json d).
Proof.
  induction d as [|[k' cs'] d IH]; cbn [Map.set Raw.Deck_to_json map fst snd].
  - reflexivity.
  - destruct (String.eqb k' k); cbn [map fst snd]; [reflexivity|].
    f_equal. exact IH.
Qed.

Lemma key_of_card fmt cs :
  Raw.key_of fmt (Raw.CardState_to_json cs) = Ok (hand cs ++ "|" ++ position cs).
Proof. reflexivity. Qed.

Lemma for_of_runtime fmt arr : forall d : Deck,
  Raw.for_of fmt (map Raw.CardState_to_json arr) (Raw.Deck_to_json d)
  = Ok (Raw.Deck_to_json
          (fold_left (fun map cs => Map.set (hand cs ++ "|" ++ position cs) cs map) arr d)).
Proof.
  induction arr as [|cs arr IH]; intros d; cbn [map Raw.for_of fold_left].
  - reflexivity.
  - rewrite key_of_card. cbn [js_bind]. rewrite <- Deck_to_json_set. apply IH.
Qed.

Lemma loadDeck_runtime fmt ls :
  Raw.loadDeck fmt (runtime ls) = Ok (Raw.Deck_to_json (loadDeck ls)).
Proof.
  unfold Raw.loadDeck, loadDeck. rewrite runtime_deck.
  destruct (STORAGE_KEY ls) as [[| |arr]|]; try reflexivity.
  cbn [option_map runtime_text truthy JSON.parse js_bind Raw.iterate].
  change (@Map.empty Raw.json) with (Raw.Deck_to_json Map.empty).
  rewrite for_of_runtime. reflexivity.
Qed.




(** ** C8: what is saved is what is loaded *)

(** Setting the cards of a deck one by one, as [loadDeck] does, appends
    the deck to a map that has none of its keys. *)
Lemma load_values (d : Deck) : forall m0 : Deck,
  keyed d -> List.NoDup (Map.keys m0 ++ Map.keys d)%list ->
  fold_left (fun map cs => Map.set (hand cs ++ "|" ++ position cs) cs map)
            (Map.values d) m0
  = (m0 ++ d)%list.
Proof.
  induction d as [|[k cs] d IH]; intros m0 Hk Hnd; cbn [Map.values map fold_left snd].
  - now rewrite app_nil_r.
  - inversion Hk as [|? ? Hkey Hk']; subst. cbn [fst snd] in Hkey. rewrite <- Hkey.
    fold (Map.values d). cbn [Map.keys map fst] in Hnd. fold (Map.keys d) in Hnd.
    rewrite set_absent.
    + rewrite IH; [now rewrite <- app_assoc|exact Hk'|].
      unfold Map.keys in *. rewrite map_app, <- app_assoc. exact Hnd.
    + apply get_None_keys. apply NoDup_remove_2 in Hnd.
      intros Hin. apply Hnd. apply in_or_app. now left.
Qed.

Lemma loadDeck_saveDeck d ls : keyed d -> is_map d -> loadDeck (saveDeck d ls) = d.
Proof.
  intros Hk Hm. unfold loadDeck, saveDeck.
  cbn [STORAGE_KEY truthy JSON.stringify JSON.parse].
  now apply (load_values d []).
Qed.






(** The decks the engine holds are such maps, whatever the storage it
    started from. *)
Lemma set_keyed k cs (d : Deck) :
  keyed d -> k = hand cs ++ "|" ++ position cs -> keyed (Map.set k cs d).
Proof.
  unfold keyed. rewrite !List.Forall_forall. intros Hd Hk [k' cs'] Hin.
  apply In_set in Hin. destruct Hin as [[-> ->]|Hin]; [exact Hk|].
  now apply Hd.
Qed.

Lemma set_is_map {V} k (v : V) (m : Map.t V) : is_map m -> is_map (Map.set k v m).
Proof.
  unfold is_map. intros Hm. destruct (Map.get k m) eqn:E.
  - rewrite keys_set_present; [exact Hm|congruence].
  - rewrite keys_set_absent by exact E.
    apply List.NoDup_app.
    + exact Hm.
    + repeat constructor. intros [].
    + intros x Hx [<-|[]]. now apply get_None_keys in E.
Qed.

Lemma loadDeck_wf ls : deck_wf (loadDeck ls).
Proof.
  unfold loadDeck.
  assert (Hempty : deck_wf Map.empty) by (split; constructor).
  destruct (STORAGE_KEY ls) as [[| |arr]|]; try exact Hempty.
  cbn [truthy JSON.parse]. revert Hempty. generalize (@Map.empty CardState).
  induction arr as [|cs arr IH]; intros m Hm; cbn [fold_left]; [exact Hm|].
  apply IH. destruct Hm. split; [now apply set_keyed|now apply set_is_map].
Qed.

Lemma addMissing_wf combos : forall d, deck_wf d -> deck_wf (addMissing combos d).
Proof.
  unfold addMissing.
  induction combos as [|c combos IH]; intros d Hd; cbn [fold_left]; [exact Hd|].
  apply IH. destruct (Map.has (comboKey c) d); [exact Hd|].
  destruct Hd. split; [now apply set_keyed|now apply set_is_map].
Qed.

Lemma the_deck_wf s :
  (forall d, deck s = Some d -> deck_wf d) -> deck_wf (the_deck s).
Proof.
  intros H. destruct (deck s) as [d|] eqn:E.
  - destruct (the_deck_Some _ _ E) as [-> _]. now apply H.
  - destruct (ensureDeck_unloaded s E) as (-> & _).
    apply addMissing_wf, loadDeck_wf.
Qed.

Lemma reachable_deck_wf ls s : reachable_from ls s -> deck_wf (the_deck s).
Proof.
  induction 1 as [|s h p b Hs IH].
  - apply the_deck_wf. discriminate.
  - destruct (card_of h p s) as [card|] eqn:Hget.
    + destruct (recordAnswer_present h p b s card Hget) as [_ Hd].
      destruct (the_deck_Some _ _ Hd) as [-> _].
      destruct IH as [Hk Hm]. split; [|now apply set_is_map].
      apply set_keyed; [exact Hk|].
      apply get_Some_In in Hget. unfold keyed in Hk.
      rewrite List.Forall_forall in Hk. apply Hk in Hget. cbn [fst snd] in Hget.
      destruct b; exact Hget.
    + now rewrite (recordAnswer_absent _ _ _ _ Hget), the_deck_loaded.
Qed.


(** ** C9: what the loaders do with any stored text *)

Lemma loadStats_returns (ls : Raw.storage) : exists v, Raw.loadStats ls = Ok v.
Proof.
  unfold Raw.loadStats.
  destruct (ls !! Raw.STATS_KEY) as [[| |v]|]; cbn; eauto.
Qed.

Lemma loadDeck_returns fmt (ls : Raw.storage) : exists m, Raw.loadDeck fmt ls = Ok m.
Proof.
  unfold Raw.loadDeck.
  destruct (ls !! Raw.STORAGE_KEY) as [[| |v]|]; cbn [truthy JSON.parse js_bind]; eauto.
  destruct (Raw.iterate v) as [arr|]; cbn [js_bind]; eauto.
  destruct (Raw.for_of fmt arr Map.empty); cbn [js_bind]; eauto.
Qed.

(** The property as the specification has it fails on a stored text that
    parses but is not a statistics record: for the text [{}],
    [loadStats] returns the empty object, not the all-zero record. *)
Lemma malformed_stats_returned :
  let ls : Raw.storage := {[ Raw.STATS_KEY := Json (Raw.JObject []) ]} in
  Raw.Stats_of_json (Raw.JObject []) = None /\
  Raw.loadStats ls = Ok (Raw.JObject []) /\
  Raw.loadStats ls <> Ok (Raw.Stats_to_json defaultStats).
Proof.
  cbn zeta. unfold Raw.loadStats. rewrite lookup_singleton_eq.
  repeat split. discriminate.
Qed.

(** Likewise an array of objects that are not cards is kept, re-keyed with
    the string "undefined" where a name is missing. *)
Lemma malformed_deck_kept fmt :
  let entry := Raw.JObject [("hand", Raw.JString "AA")] in
  let ls : Raw.storage := {[ Raw.STORAGE_KEY := Json (Raw.JArray [entry]) ]} in
  Raw.CardState_of_json entry = None /\
  Raw.loadDeck fmt ls = Ok [("AA|undefined", entry)].
Proof.
  cbn zeta. unfold Raw.loadDeck. rewrite lookup_singleton_eq.
  split; reflexivity.
Qed.

(** C9, as the code has it.  Whatever the storage holds, [loadStats] and
    [loadDeck] return normally.  When a slot has nothing to parse (absent,
    empty or rejected by [JSON.parse]) they return the defaults: the
    all-zero statistics, the empty deck.  A text that parses is not
    validated: [loadStats] returns the value it denotes as it is, and
    [loadDeck] returns the empty deck when that value cannot be iterated
    or the key of one of its elements cannot be computed, and otherwise
    the elements, whatever they are, under the keys computed from them. *)
Theorem loaders_never_raise :
  (forall ls : Raw.storage, exists v, Raw.loadStats ls = Ok v) /\
  (forall fmt (ls : Raw.storage), exists m, Raw.loadDeck fmt ls = Ok m) /\
  (forall ls : Raw.storage,
     unusable (ls !! Raw.STATS_KEY) ->
     Raw.loadStats ls = Ok (Raw.Stats_to_json defaultStats)) /\
  (forall fmt (ls : Raw.storage),
     unusable (ls !! Raw.STORAGE_KEY) ->
     Raw.loadDeck fmt ls = Ok Map.empty) /\
  (forall (ls : Raw.storage) v,
     ls !! Raw.STATS_KEY = Some (Json v) -> Raw.loadStats ls = Ok v) /\
  (forall fmt (ls : Raw.storage) v,
     ls !! Raw.STORAGE_KEY = Some (Json v) ->
     Raw.loadDeck fmt ls =
       match arr <- Raw.iterate v ;; Raw.for_of fmt arr Map.empty with
       | Ok map => Ok map
       | Throw _ => Ok Map.empty
       end) /\
  (forall ls : localStorage,
     Raw.loadStats (runtime ls) = Ok (Raw.Stats_to_json (loadStats ls)) /\
     forall fmt, Raw.loadDeck fmt (runtime ls) = Ok (Raw.Deck_to_json (loadDeck ls))).
Proof.
  split; [exact loadStats_returns|].
  split; [exact loadDeck_returns|].
  split.
  { intros ls [H|[H|H]]; unfold Raw.loadStats; rewrite H; reflexivity. }
  split.
  { intros fmt ls [H|[H|H]]; unfold Raw.loadDeck; rewrite H; reflexivity. }
  split.
  { intros ls v H. unfold Raw.loadStats. rewrite H. reflexivity. }
  split.
  { intros fmt ls v H. unfold Raw.loadDeck. rewrite H.
    cbn [truthy JSON.parse js_bind].
    destruct (Raw.iterate v) as [arr|]; cbn [js_bind]; [|reflexivity].
    destruct (Raw.for_of fmt arr Map.empty); reflexivity. }
  intros ls. split; [apply loadStats_runtime|intros; apply loadDeck_runtime].
Qed.

Lemma loaders_never_raise_witness :
  let ls : Raw.storage :=
    {[ Raw.STATS_KEY := Garbage; Raw.STORAGE_KEY := Json (Raw.JBool true) ]} in
  Raw.loadStats ls = Ok (Raw.Stats_to_json defaultStats) /\
  Raw.loadDeck (fun _ => "") ls = Ok Map.empty.
Proof.
  destruct loaders_never_raise as (_ & _ & Hstats & _ & _ & Hdeck & _).
  split.
  - apply Hstats. right. right. vm_compute. reflexivity.
  - rewrite (Hdeck _ _ (Raw.JBool true)); [reflexivity|].
    vm_compute. reflexivity.
Defined.

(** ** Identities and keys *)

Lemma bar_in_key h p : In "|"%char (list_ascii_of_string (h ++ "|" ++ p)).
Proof.
  induction h as [|a h IH].
  - left. reflexivity.
  - right. exact IH.
Qed.

(** Two identities with the same key are the same, provided the second
    has no separator in its names. *)
Lemma key_injective h p : forall h' p',
  bar_free h' -> bar_free p' ->
  h ++ "|" ++ p = h' ++ "|" ++ p' -> h = h' /\ p = p'.
Proof.
  induction h as [|a h IH]; intros [|a' h'] p' Hh Hp E.
  - change (String "|" p = String "|" p') in E. inversion E. auto.
  - change (String "|" p = String a' (h' ++ "|" ++ p')) in E.
    inversion E; subst. exfalso. apply Hh. cbn. now left.
  - change (String a (h ++ "|" ++ p) = String "|" p') in E.
    inversion E as [[Ha Ep]]. exfalso. apply Hp. rewrite <- Ep. apply bar_in_key.
  - change (String a (h ++ "|" ++ p) = String a' (h' ++ "|" ++ p')) in E.
    inversion E as [[Ha Ep]]. subst a'.
    destruct (IH h' p') as [-> ->]; auto.
    intros Hin. apply Hh. cbn. now right.
Qed.

(** The names of the catalog have no separator. *)
Lemma catalog_bar_free :
  Forall (fun c => bar_free (combo_hand c) /\
                   bar_free (Position_string (combo_position c))) getAllCombos.
Proof.
  apply List.Forall_forall. intros c Hin.
  assert (H : forallb (fun c => negb (existsb (Ascii.eqb "|")
                 (list_ascii_of_string (combo_hand c) ++
                  list_ascii_of_string (Position_string (combo_position c)))%list))
              getAllCombos = true) by (vm_compute; reflexivity).
  rewrite forallb_forall in H. specialize (H c Hin).
  apply Bool.negb_true_iff in H.
  split; intros Hbar; apply Bool.not_true_iff_false in H; apply H;
    apply existsb_exists; exists "|"%char;
    (split; [apply in_or_app; auto|apply Ascii.eqb_refl]).
Qed.

Lemma reachable_catalog_deck s : reachable s -> catalog_deck (the_deck s).
Proof.
  induction 1 as [|s h p b Hs IH].
  - assert (E : the_deck (module_init no_storage)
                = map (fun c => (comboKey c, newCard c)) getAllCombos)
      by (vm_compute; reflexivity).
    rewrite E. intros k cs Hin. apply in_map_iff in Hin.
    destruct Hin as (c & Heq & Hc). inversion Heq; subst.
    now apply (in_map combo_identity).
  - destruct (card_of h p s) as [card|] eqn:Hget.
    + destruct (recordAnswer_present h p b s card Hget) as [_ Hd].
      destruct (the_deck_Some _ _ Hd) as [-> _].
      intros k cs Hin. apply In_set in Hin. destruct Hin as [[_ ->]|Hin].
      * apply get_Some_In in Hget. apply IH in Hget. destruct b; exact Hget.
      * now apply (IH k).
    + now rewrite (recordAnswer_absent _ _ _ _ Hget), the_deck_loaded.
Qed.

(** From a fresh deck, an identity outside the catalog has no entry under
    its key, so that [recordAnswer] on it is the no-op of C5. *)
Lemma outside_catalog_noop hand_ position_ correct s :
  reachable s ->
  ~ In (hand_, position_) (map combo_identity getAllCombos) ->
  card_of hand_ position_ s = None /\
  recordAnswer hand_ position_ correct s = loaded s.
Proof.
  intros Hs Hout.
  assert (Hnone : card_of hand_ position_ s = None).
  { unfold card_of. destruct (Map.get _ (the_deck s)) as [cs|] eqn:E; [|reflexivity].
    exfalso. apply Hout. apply get_Some_In in E.
    pose proof (reachable_catalog_deck s Hs _ _ E) as Hcat.
    destruct (reachable_deck_wf _ s Hs) as [Hk _].
    unfold keyed in Hk. rewrite List.Forall_forall in Hk.
    specialize (Hk _ E). cbn [fst snd] in Hk.
    apply in_map_iff in Hcat. destruct Hcat as (c & Hid & Hc).
    pose proof catalog_bar_free as Hbar. rewrite List.Forall_forall in Hbar.
    destruct (Hbar c Hc) as [Hbh Hbp].
    unfold identity, combo_identity in Hid. inversion Hid as [[Hh Hp]].
    rewrite <- Hh, <- Hp in Hk.
    destruct (key_injective _ _ _ _ Hbh Hbp Hk) as [-> ->].
    now apply (in_map combo_identity). }
  split; [exact Hnone|now apply recordAnswer_absent].
Qed.

(** * Further properties of the engine *)

(** ** The statistics *)

Lemma getStats_loaded s : getStats (loaded s) = getStats s.
Proof. unfold getStats. now rewrite loaded_storage. Qed.

Lemma recordAnswer_stats hand_ position_ correct s card :
  card_of hand_ position_ s = Some card ->
  getStats (recordAnswer hand_ position_ correct s) = counted correct (getStats s).
Proof.
  unfold card_of. intros Hget. unfold recordAnswer.
  rewrite ensureDeck_loaded, Hget.
  rewrite <- (getStats_loaded s). unfold getStats.
  destruct correct; reflexivity.
Qed.

Lemma counted_ok correct stats : stats_ok stats -> stats_ok (counted correct stats).
Proof.
  unfold stats_ok. intros H. destruct correct; cbn [counted totalReviews correctReviews
    currentStreak bestStreak]; [|lia].
  destruct (Z.gtb_spec (currentStreak stats + 1) (bestStreak stats)); lia.
Qed.

(** The fresh deck: one new card for each combo, in the catalog's order. *)
Lemma fresh_deck :
  the_deck (module_init no_storage) = map (fun c => (comboKey c, newCard c)) getAllCombos.
Proof. vm_compute. reflexivity. Qed.

Lemma fresh_clock : clock (loaded (module_init no_storage)) = 0.
Proof. vm_compute. reflexivity. Qed.

(** X1.  Whatever statistics the storage held at the start, if they were
    in order ([0 <= currentStreak <= bestStreak <= correctReviews <=
    totalReviews]) they are in order after any number of answers. *)
Theorem stats_stay_ordered ls s :
  reachable_from ls s -> stats_ok (loadStats ls) -> stats_ok (getStats s).
Proof.
  intros Hs H0. induction Hs as [|s h p b Hs IH]; [exact H0|].
  destruct (card_of h p s) as [card|] eqn:Hget.
  - rewrite (recordAnswer_stats _ _ _ _ _ Hget). now apply counted_ok.
  - now rewrite (recordAnswer_absent _ _ _ _ Hget), getStats_loaded.
Qed.

Lemma stats_stay_ordered_witness :
  stats_ok (getStats (recordAnswer "AA" "UTG" false
                        (recordAnswer "KK" "Blinds" true (module_init no_storage)))).
Proof.
  apply (stats_stay_ordered no_storage).
  - apply reach_answer, reach_answer, reach_init.
  - vm_compute. repeat split; discriminate.
Defined.

(** X2.  From a fresh deck, the clock is the number of answers recorded:
    it equals [totalReviews]. *)
Theorem clock_counts_reviews s :
  reachable s -> clock (loaded s) = totalReviews (getStats s).
Proof.
  induction 1 as [|s h p b Hs IH]; [now rewrite fresh_clock|].
  destruct (card_of h p s) as [card|] eqn:Hget.
  - rewrite (recordAnswer_clock _ _ _ _ _ Hget), (recordAnswer_stats _ _ _ _ _ Hget), IH.
    destruct b; reflexivity.
  - now rewrite (recordAnswer_absent _ _ _ _ Hget), loaded_loaded, getStats_loaded.
Qed.

Lemma clock_counts_reviews_witness :
  let s := recordAnswer "AA" "UTG" false
             (recordAnswer "72o" "UTG" true
                (recordAnswer "KK" "Blinds" true (module_init no_storage))) in
  clock (loaded s) = totalReviews (getStats s).
Proof.
  apply clock_counts_reviews.
  apply reach_answer, reach_answer, reach_answer, reach_init.
Defined.

(** ** Repetitions and mastery *)

Lemma correct_answers_repetitions hand_ position_ n : forall s card,
  card_of hand_ position_ s = Some card ->
  exists card',
    card_of hand_ position_ (answers hand_ position_ (repeat true n) s) = Some card' /\
    repetitions card' = repetitions card + Z.of_nat n.
Proof.
  induction n as [|n IH]; intros s card Hget.
  - exists card. split; [exact Hget|]. cbn [Z.of_nat]. lia.
  - cbn [repeat answers fold_left]. fold (answers hand_ position_ (repeat true n)).
    destruct (IH (recordAnswer hand_ position_ true s)
                 (answered true card (clock (loaded s) + 1)))
      as (card' & Hc' & Hr'); [now apply recordAnswer_card|].
    exists card'. split; [exact Hc'|].
    rewrite Hr'. cbn [answered repetitions]. lia.
Qed.

(** X3.  [repetitions] is the length of the current run of correct
    answers: after an incorrect answer and then [n] correct ones, it is
    [n], whatever it was before.  So a card that was missed counts as
    mastered again exactly from the third correct answer in a row. *)
Theorem repetitions_count_the_run hand_ position_ (n : nat) s card :
  card_of hand_ position_ s = Some card ->
  exists card',
    card_of hand_ position_ (answers hand_ position_ (false :: repeat true n) s)
    = Some card' /\
    repetitions card' = Z.of_nat n /\
    (mastered card' = true <-> (3 <= n)%nat).
Proof.
  intros Hget. cbn [answers fold_left]. fold (answers hand_ position_ (repeat true n)).
  destruct (correct_answers_repetitions hand_ position_ n
              (recordAnswer hand_ position_ false s)
              (answered false card (clock (loaded s) + 1)))
    as (card' & Hc' & Hr'); [now apply recordAnswer_card|].
  exists card'. split; [exact Hc'|].
  cbn [answered repetitions] in Hr'.
  split; [lia|]. unfold mastered. rewrite Hr'.
  destruct (Z.geb_spec (0 + Z.of_nat n) 3); split; intros; try lia; try discriminate;
    reflexivity.
Qed.

Lemma repetitions_count_the_run_witness :
  let s := answers "AA" "UTG" [true; true; true; true] (module_init no_storage) in
  exists card',
    card_of "AA" "UTG" (answers "AA" "UTG" (false :: repeat true 2) s) = Some card' /\
    repetitions card' = 2 /\
    (mastered card' = true <-> (3 <= 2)%nat).
Proof.
  apply (repetitions_count_the_run "AA" "UTG" 2
           (answers "AA" "UTG" [true; true; true; true] (module_init no_storage))
           {| hand := "AA"; position := "UTG"; interval := 22;
              ease := Math.max 1.3 (Math.max 1.3 (Math.max 1.3 (Math.max 1.3 (2.5 + 0.1) + 0.1) + 0.1) + 0.1);
              repetitions := 4; due := 26; lastSeen := 4 |}).
  vm_compute. reflexivity.
Defined.

(** ** What an answer leaves alone *)

Lemma the_deck_recordAnswer hand_ position_ correct s :
  the_deck (recordAnswer hand_ position_ correct s) =
  match card_of hand_ position_ s with
  | Some card =>
      Map.set (hand_ ++ "|" ++ position_)
              (answered correct card (clock (loaded s) + 1)) (the_deck s)
  | None => the_deck s
  end.
Proof.
  destruct (card_of hand_ position_ s) as [card|] eqn:Hget.
  - destruct (recordAnswer_present _ _ correct _ _ Hget) as [_ Hd].
    now destruct (the_deck_Some _ _ Hd).
  - now rewrite (recordAnswer_absent _ _ _ _ Hget), the_deck_loaded.
Qed.

(** X4.  An answer touches one card only: the deck keeps its keys, in
    their order, and the card under every other key is the one that was
    there. *)
Theorem answer_changes_one_card hand_ position_ correct s :
  let s' := recordAnswer hand_ position_ correct s in
  Map.keys (the_deck s') = Map.keys (the_deck s) /\
  length (Map.values (the_deck s')) = length (Map.values (the_deck s)) /\
  forall k, k <> hand_ ++ "|" ++ position_ ->
            Map.get k (the_deck s') = Map.get k (the_deck s).
Proof.
  intros s'. unfold s'. rewrite the_deck_recordAnswer.
  destruct (card_of hand_ position_ s) as [card|] eqn:Hget; [|auto].
  assert (Hk : Map.keys (Map.set (hand_ ++ "|" ++ position_)
                           (answered correct card (clock (loaded s) + 1)) (the_deck s))
               = Map.keys (the_deck s)).
  { apply keys_set_present. unfold card_of in Hget. congruence. }
  split; [exact Hk|]. split.
  - unfold Map.values. rewrite !length_map.
    rewrite <- (length_map fst), <- (length_map fst (the_deck s)).
    exact (f_equal (@length string) Hk).
  - intros k Hne. apply get_set_ne. congruence.
Qed.

(** ** Intervals grow *)







(** ** The deck always covers the catalog *)

Lemma addMissing_cons c combos d :
  addMissing (c :: combos) d
  = addMissing combos (if Map.has (comboKey c) d then d
                       else Map.set (comboKey c) (newCard c) d).
Proof. reflexivity. Qed.

(** What [addMissing] leaves under a key: the card that was there, or
    else the new card of the first combo with that key. *)
Lemma addMissing_get combos : forall (d : Deck) k,
  Map.get k (addMissing combos d) =
  match Map.get k d with
  | Some cs => Some cs
  | None => option_map newCard (List.find (fun c => String.eqb (comboKey c) k) combos)
  end.
Proof.
  induction combos as [|c combos IH]; intros d k.
  - change (addMissing [] d) with d. cbn [List.find option_map]. now destruct (Map.get k d).
  - rewrite addMissing_cons, IH. cbn [List.find]. unfold Map.has.
    destruct (Map.get (comboKey c) d) as [cs0|] eqn:Ec.
    + destruct (String.eqb_spec (comboKey c) k) as [<-|Hne]; [now rewrite Ec|reflexivity].
    + destruct (String.eqb_spec (comboKey c) k) as [<-|Hne].
      * rewrite get_set_eq, Ec. reflexivity.
      * now rewrite (get_set_ne _ _ _ _ Hne).
Qed.

Lemma addMissing_complete (d : Deck) : complete (addMissing getAllCombos d).
Proof.
  intros c Hc. rewrite addMissing_get.
  destruct (Map.get (comboKey c) d); [discriminate|].
  destruct (List.find _ getAllCombos) eqn:E; [discriminate|].
  apply (find_none _ _ E) in Hc. now rewrite String.eqb_refl in Hc.
Qed.

Lemma reachable_complete ls s : reachable_from ls s -> complete (the_deck s).
Proof.
  induction 1 as [|s h p b Hs IH].
  - destruct (ensureDeck_unloaded (module_init ls) eq_refl) as (-> & _).
    apply addMissing_complete.
  - rewrite the_deck_recordAnswer.
    destruct (card_of h p s) as [card|] eqn:Hget; [|exact IH].
    intros c Hc.
    destruct (String.eqb_spec (h ++ "|" ++ p) (comboKey c)) as [<-|Hne].
    + rewrite get_set_eq. discriminate.
    + rewrite (get_set_ne _ _ _ _ Hne). now apply IH.
Qed.

Lemma first_combo : In {| combo_hand := "AA"; combo_position := UTG |} getAllCombos.
Proof. left. reflexivity. Qed.

Lemma complete_nonempty (d : Deck) : complete d -> Map.values d <> [].
Proof.
  intros H E. apply (H _ first_combo).
  destruct d; [reflexivity|discriminate].
Qed.

(** ** The next card, when none is due *)

Lemma getNextCard_loaded random s : getNextCard random s = getNextCard random (loaded s).
Proof.
  unfold getNextCard.
  now rewrite (ensureDeck_idem _ _ (loaded_deck s)), ensureDeck_loaded.
Qed.

Lemma loaded_eta s :
  loaded s = {| deck := Some (the_deck s); clock := clock (loaded s);
                storage := storage (loaded s) |}.
Proof.
  pose proof (loaded_deck s) as H. destruct (loaded s) as [d c l].
  cbn [deck clock storage] in *. now rewrite H.
Qed.

Lemma next_card_waiting (random : Q) (d : Deck) (now : Z) (ls : localStorage) :
  let s := {| deck := Some d; clock := now; storage := ls |} in
  (0 <= random)%Q -> (random < 1)%Q ->
  Map.values d <> [] ->
  (forall cs, In cs (Map.values d) -> now < due cs) ->
  exists card,
    getNextCard random s = (Ok (Some card), s) /\
    In card (Map.values d) /\
    (forall cs, In cs (Map.values d) -> due card <= due cs + 2).
Proof.
  intros s H0 H1 Hne Hnone.
  unfold getNextCard. rewrite (ensureDeck_idem s d eq_refl).
  cbn [clock s].
  set (cards := Map.values d) in *.
  assert (Hdue : List.filter (fun c => due c <=? now) cards = []).
  { clearbody cards. clear Hne. induction cards as [|c cards IH]; [reflexivity|].
    cbn [List.filter].
    destruct (Z.leb_spec (due c) now) as [Hle|_].
    - specialize (Hnone c (or_introl eq_refl)). lia.
    - apply IH. intros cs Hin. apply Hnone. now right. }
  rewrite Hdue. change (0 <? Z.of_nat (length (@nil CardState))) with false.
  cbv iota. fold (by_key due).
  destruct (Array.sort (by_key due) cards) as [|c sorted] eqn:Esort.
  { exfalso. pose proof (sort_perm (by_key due) cards) as Hp.
    rewrite Esort in Hp. apply Permutation_sym, Permutation_nil in Hp. contradiction. }
  destruct (sort_head_least due cards c sorted Esort) as [Hc Hleast].
  change (first_due (c :: sorted)) with (Ok (due c)). cbn [js_bind].
  set (pool := List.filter (fun c1 => due c1 <=? due c + 2) (c :: sorted)).
  assert (Hpool : (0 < length pool)%nat).
  { unfold pool. cbn [List.filter].
    destruct (Z.leb_spec (due c) (due c + 2)); [cbn; lia|lia]. }
  destruct (at_In pool _ (random_index random _ H0 H1 Hpool)) as (card & Hat & Hin).
  exists card. rewrite Hat. split; [reflexivity|].
  apply filter_In in Hin. destruct Hin as [Hin Hwin]. apply Z.leb_le in Hwin.
  rewrite <- Esort in Hin.
  apply (Permutation_in card (Permutation_sym (sort_perm _ cards))) in Hin.
  split; [exact Hin|].
  intros cs Hcs. specialize (Hleast cs Hcs). lia.
Qed.



(** ** The card drawn can be answered *)

Lemma some_card_due_dec (cards : list CardState) (now : Z) :
  (exists cs, In cs cards /\ due cs <= now) \/ (forall cs, In cs cards -> now < due cs).
Proof.
  induction cards as [|c cards [(cs & Hin & Hle)|IH]].
  - right. intros cs [].
  - left. exists cs. split; [now right|exact Hle].
  - destruct (Z.le_gt_cases (due c) now) as [Hle|Hgt].
    + left. exists c. split; [now left|exact Hle].
    + right. intros cs [<-|Hin]; [lia|now apply IH].
Qed.

(** On every deck that is not empty [getNextCard] returns one of its
    cards. *)
Lemma next_card_some (random : Q) (d : Deck) (now : Z) (ls : localStorage) :
  let s := {| deck := Some d; clock := now; storage := ls |} in
  (0 <= random)%Q -> (random < 1)%Q ->
  Map.values d <> [] ->
  exists card, getNextCard random s = (Ok (Some card), s) /\ In card (Map.values d).
Proof.
  intros s H0 H1 Hne.
  destruct (some_card_due_dec (Map.values d) now) as [Hdue|Hnone].
  - destruct (next_card_due random d now ls H0 H1 Hdue) as (card & Hget & Hin & _).
    now exists card.
  - destruct (next_card_waiting random d now ls H0 H1 Hne Hnone) as (card & Hget & Hin & _).
    now exists card.
Qed.

Lemma next_card_reachable ls s (random : Q) :
  reachable_from ls s -> (0 <= random)%Q -> (random < 1)%Q ->
  exists card,
    getNextCard random s = (Ok (Some card), loaded s) /\
    card_of (hand card) (position card) (loaded s) = Some card.
Proof.
  intros Hs H0 H1.
  destruct (reachable_deck_wf ls s Hs) as [Hk Hm].
  pose proof (complete_nonempty _ (reachable_complete ls s Hs)) as Hne.
  rewrite getNextCard_loaded, loaded_eta.
  destruct (next_card_some random (the_deck s) (clock (loaded s)) (storage (loaded s))
              H0 H1 Hne) as (card & Hget & Hin).
  exists card. split; [exact Hget|].
  rewrite <- loaded_eta. unfold card_of. rewrite the_deck_loaded.
  unfold Map.values in Hin. apply in_map_iff in Hin.
  destruct Hin as ([k cs] & Hcs & Hin). cbn [snd] in Hcs. subst cs.
  unfold keyed in Hk. rewrite List.Forall_forall in Hk.
  pose proof (Hk _ Hin) as Hkey. cbn [fst snd] in Hkey. rewrite <- Hkey.
  now apply In_get.
Qed.



(** ** Loading *)







(** X10.  [ensureDeck] completes the deck without touching what was
    stored: under every key, the loaded deck has the stored card if there
    was one, or else a new card if the key is a combo's, or else
    nothing. *)
Theorem load_keeps_stored_cards (ls : localStorage) (k : string) :
  Map.get k (the_deck (module_init ls)) =
  match Map.get k (loadDeck ls) with
  | Some cs => Some cs
  | None => option_map newCard
              (List.find (fun c => String.eqb (comboKey c) k) getAllCombos)
  end.
Proof.
  destruct (ensureDeck_unloaded (module_init ls) eq_refl) as (-> & _).
  apply addMissing_get.
Qed.

Lemma find_last {A} (f : A -> bool) (l : list A) (a : A) :
  List.find f (l ++ [a]) =
  match List.find f l with
  | Some x => Some x
  | None => if f a then Some a else None
  end.
Proof.
  induction l as [|b l IH]; cbn [app List.find]; [reflexivity|].
  now destruct (f b).
Qed.

Lemma load_get (arr : list CardState) k : forall m : Deck,
  Map.get k (fold_left (fun map cs => Map.set (hand cs ++ "|" ++ position cs) cs map) arr m)
  = match List.find (fun cs => String.eqb (hand cs ++ "|" ++ position cs) k) (rev arr) with
    | Some cs => Some cs
    | None => Map.get k m
    end.
Proof.
  induction arr as [|cs arr IH]; intros m; cbn [fold_left rev List.find]; [reflexivity|].
  rewrite IH, find_last.
  destruct (List.find _ (rev arr)); [reflexivity|].
  destruct (String.eqb_spec (hand cs ++ "|" ++ position cs) k) as [<-|Hne].
  - apply get_set_eq.
  - now apply get_set_ne.
Qed.

(** X11.  When the stored array has several cards of one identity,
    [loadDeck] keeps the last of them: the card under a key is the last
    card of the array with that key, and there is none when the array has
    none. *)
Theorem stored_duplicates_last_wins (arr : list CardState) (stats : option (text Stats))
    (k : string) :
  let ls := {| STORAGE_KEY := Some (Json arr); STATS_KEY := stats |} in
  Map.get k (loadDeck ls)
  = List.find (fun cs => String.eqb (hand cs ++ "|" ++ position cs) k) (rev arr).
Proof.
  cbn zeta. unfold loadDeck. cbn [STORAGE_KEY truthy JSON.parse].
  rewrite load_get. now destruct (List.find _ (rev arr)).
Qed.

(** ** Reset without reload *)

(** X12.  [resetProgress] alone empties the storage and nothing else: the
    module still holds its deck and its clock, and the next answer saves
    that whole deck again, with statistics that start from zero.  Only
    [reloadDeck] makes the reset reach the deck. *)
Theorem reset_alone_keeps_the_deck hand_ position_ correct s d card :
  deck s = Some d -> deck_wf d ->
  Map.get (hand_ ++ "|" ++ position_) d = Some card ->
  let s1 := resetProgress s in
  the_deck s1 = d /\
  clock (loaded s1) = clock s /\
  storage s1 = no_storage /\
  let s2 := recordAnswer hand_ position_ correct s1 in
  the_deck s2 = Map.set (hand_ ++ "|" ++ position_)
                        (answered correct card (clock s + 1)) d /\
  loadDeck (storage s2) = the_deck s2 /\
  getStats s2 = counted correct defaultStats.
Proof.
  intros Hd [Hk Hm] Hget s1.
  assert (Hd1 : deck s1 = Some d) by exact Hd.
  destruct (the_deck_Some _ _ Hd1) as [Hthe Hl].
  split; [exact Hthe|]. split; [now rewrite Hl|]. split; [reflexivity|].
  cbn zeta.
  assert (Hc : card_of hand_ position_ s1 = Some card)
    by (unfold card_of; now rewrite Hthe).
  rewrite the_deck_recordAnswer, Hc, Hthe, Hl.
  change (clock s1) with (clock s). split; [reflexivity|]. split.
  - unfold recordAnswer. rewrite ensureDeck_loaded.
    unfold card_of in Hc. rewrite Hc, Hthe.
    assert (Hk' : keyed (Map.set (hand_ ++ "|" ++ position_)
                           (answered correct card (clock (loaded s1) + 1)) d)).
    { apply set_keyed; [exact Hk|].
      apply get_Some_In in Hget. unfold keyed in Hk.
      rewrite List.Forall_forall in Hk. apply Hk in Hget. cbn [fst snd] in Hget.
      destruct correct; exact Hget. }
    rewrite Hl in *. change (clock s1) with (clock s) in *.
    destruct correct; apply loadDeck_saveDeck; try exact Hk'; now apply set_is_map.
  - now rewrite (recordAnswer_stats _ _ _ _ _ Hc).
Qed.

Lemma reset_alone_keeps_the_deck_witness :
  let s := {| deck := Some example_deck; clock := 7; storage := no_storage |} in
  let card := {| hand := "QQ"; position := "UTG"; interval := 3; ease := 2.7;
                 repetitions := 2; due := 6; lastSeen := 3 |} in
  let s1 := resetProgress s in
  the_deck s1 = example_deck /\
  clock (loaded s1) = 7 /\
  storage s1 = no_storage /\
  let s2 := recordAnswer "QQ" "UTG" true s1 in
  the_deck s2 = Map.set "QQ|UTG" (answered true card (7 + 1)) example_deck /\
  loadDeck (storage s2) = the_deck s2 /\
  getStats s2 = counted true defaultStats.
Proof.
  apply (reset_alone_keeps_the_deck "QQ" "UTG" true
           {| deck := Some example_deck; clock := 7; storage := no_storage |}
           example_deck).
  - reflexivity.
  - split; [repeat constructor|].
    unfold is_map. cbn. repeat constructor; cbn; intuition discriminate.
  - reflexivity.
Defined.

(** ** The two stored items *)

(** X13.  The deck and the statistics are stored under different keys:
    saving the one never changes what the loader of the other returns,
    whatever the storage holds. *)
Theorem deck_and_stats_stored_apart fmt (raw : Raw.storage) (d : Deck) (st : Stats) :
  Raw.loadDeck fmt (Raw.saveStats st raw) = Raw.loadDeck fmt raw /\
  Raw.loadStats (Raw.saveDeck d raw) = Raw.loadStats raw.
Proof.
  unfold Raw.loadDeck, Raw.loadStats, Raw.saveStats, Raw.saveDeck.
  rewrite (lookup_insert_ne _ _ _ _ (not_eq_sym keys_differ)).
  rewrite (lookup_insert_ne _ _ _ _ keys_differ).
  split; reflexivity.
Qed.

(** ** Mastery in percent *)










(** * The table of ranges *)

Lemma RANGES_hands_distinct : List.NoDup (map entry_hand RANGES).
Proof.
  assert (E : nodup string_dec (map entry_hand RANGES) = map entry_hand RANGES)
    by (vm_compute; reflexivity).
  rewrite <- E. apply NoDup_nodup.
Qed.

Lemma RANGES_actions_nonempty :
  Forall (fun e => forall p, actions e p <> []) RANGES.
Proof.
  unfold RANGES. cbn [map app].
  repeat (constructor; [intros []; discriminate|]). constructor.
Qed.

Lemma find_entry (e : RangeEntry) :
  In e RANGES ->
  List.find (fun r => String.eqb (entry_hand r) (entry_hand e)) RANGES = Some e.
Proof.
  pose proof RANGES_hands_distinct as Hnd. revert Hnd.
  generalize RANGES. intros l. induction l as [|r l IH]; intros Hnd [].
  - subst r. cbn [List.find]. now rewrite String.eqb_refl.
  - cbn [List.find]. cbn [map] in Hnd. inversion Hnd as [|? ? Hnotin Hnd']; subst.
    destruct (String.eqb_spec (entry_hand r) (entry_hand e)) as [E|_].
    + exfalso. apply Hnotin. rewrite E. now apply in_map.
    + now apply IH.
Qed.

(** X16.  [getCorrectActions] reads the table: for a hand of the table it
    returns the actions of that hand's entry at the position, no entry
    being hidden by another of the same hand, and for every other hand it
    returns ['Fold'] alone. *)
Theorem getCorrectActions_reads_the_table :
  (forall e p, In e RANGES -> getCorrectActions (entry_hand e) p = actions e p) /\
  (forall hand_ p, ~ In hand_ (map entry_hand RANGES) ->
                   getCorrectActions hand_ p = [Fold]).
Proof.
  split.
  - intros e p He. unfold getCorrectActions. now rewrite (find_entry e He).
  - intros hand_ p Hout. unfold getCorrectActions.
    destruct (List.find _ RANGES) as [e|] eqn:E; [|reflexivity].
    exfalso. apply Hout. apply find_some in E. destruct E as [Hin Heq].
    apply String.eqb_eq in Heq. rewrite <- Heq. now apply in_map.
Qed.

(** X17.  Every question has an answer: for every hand and position,
    [getCorrectActions] returns at least one action, so that one of the
    four buttons is a correct answer. *)
Theorem always_a_correct_button (hand_ : string) (p : Position) :
  getCorrectActions hand_ p <> [] /\
  exists action,
    In action App.ACTIONS /\ App.includes (getCorrectActions hand_ p) action = true.
Proof.
  assert (Hne : getCorrectActions hand_ p <> []).
  { unfold getCorrectActions.
    destruct (List.find _ RANGES) as [e|] eqn:E; [|discriminate].
    apply find_some in E. destruct E as [Hin _].
    pose proof RANGES_actions_nonempty as H. rewrite List.Forall_forall in H.
    now apply H. }
  split; [exact Hne|].
  destruct (getCorrectActions hand_ p) as [|a l]; [contradiction|].
  exists a. split.
  - destruct a; cbn; auto.
  - unfold App.includes. cbn [existsb]. now destruct a.
Qed.

(** * The trainer *)

Lemma Position_of_string_string p : App.Position_of_string (Position_string p) = Some p.
Proof. now destruct p. Qed.

Lemma getMasteryPercent_state s : snd (getMasteryPercent s) = loaded s.
Proof. unfold getMasteryPercent. now rewrite ensureDeck_loaded. Qed.

(** From a fresh deck, a card of the deck is the card of a combo. *)
Lemma reachable_card_combo s k cs :
  reachable s -> In (k, cs) (the_deck s) ->
  exists c, In c getAllCombos /\
            hand cs = combo_hand c /\ position cs = Position_string (combo_position c).
Proof.
  intros Hs Hin. apply (reachable_catalog_deck s Hs) in Hin.
  apply in_map_iff in Hin. destruct Hin as (c & Hid & Hc).
  exists c. split; [exact Hc|].
  unfold identity, combo_identity in Hid. now inversion Hid.
Qed.

(** X18.  From a fresh deck, a click on an action while a drawn card is
    shown is checked against the table and recorded: the handler ends
    normally, the feedback says [correct] exactly when the action is one
    of [getCorrectActions] for the card, that answer is what
    [recordAnswer] receives, the clock moves by one, and the statistics
    shown are those the answer left. *)
Theorem answer_is_checked_and_recorded s (random : Q) (action : Action) :
  reachable s -> (0 <= random)%Q -> (random < 1)%Q ->
  exists card p,
    getNextCard random s = (Ok (Some card), loaded s) /\
    position card = Position_string p /\
    let expected := getCorrectActions (hand card) p in
    let correct := App.includes expected action in
    let s' := recordAnswer (hand card) (position card) correct (loaded s) in
    App.handleAction (Some card) None action (loaded s)
    = (App.returned
         [App.setFeedback (Some {| App.correct := correct; App.chosen := action;
                                   App.expected := expected |});
          App.setStats (counted correct (getStats s));
          App.setMastery (fst (getMasteryPercent s'))],
       s') /\
    clock s' = clock (loaded s) + 1.
Proof.
  intros Hs H0 H1.
  destruct (next_card_reachable no_storage s random Hs H0 H1) as (card & Hget & Hc).
  assert (Hin : In (hand card ++ "|" ++ position card, card) (the_deck s)).
  { unfold card_of in Hc. rewrite the_deck_loaded in Hc. now apply get_Some_In. }
  destruct (reachable_card_combo s _ _ Hs Hin) as (c & _ & _ & Hp).
  exists card, (combo_position c). split; [exact Hget|]. split; [exact Hp|].
  cbn zeta. set (expected := getCorrectActions (hand card) (combo_position c)).
  set (correct := App.includes expected action).
  set (s' := recordAnswer (hand card) (position card) correct (loaded s)).
  destruct (recordAnswer_present _ _ correct _ _ Hc) as [Hclock Hdeck].
  fold s' in Hclock, Hdeck. rewrite loaded_loaded in Hclock.
  split; [|exact Hclock].
  unfold App.handleAction, App.expected_includes.
  rewrite Hp at 1. rewrite Position_of_string_string. fold expected correct s'.
  rewrite (surjective_pairing (getMasteryPercent s')), getMasteryPercent_state.
  destruct (the_deck_Some _ _ Hdeck) as [_ ->].
  unfold s' at 1. rewrite (recordAnswer_stats _ _ _ _ _ Hc), getStats_loaded.
  reflexivity.
Qed.

Lemma answer_is_checked_and_recorded_witness :
  let s := recordAnswer "AA" "UTG" true (module_init no_storage) in
  exists card p,
    getNextCard 0.5 s = (Ok (Some card), loaded s) /\
    position card = Position_string p /\
    let expected := getCorrectActions (hand card) p in
    let correct := App.includes expected Raise in
    let s' := recordAnswer (hand card) (position card) correct (loaded s) in
    App.handleAction (Some card) None Raise (loaded s)
    = (App.returned
         [App.setFeedback (Some {| App.correct := correct; App.chosen := Raise;
                                   App.expected := expected |});
          App.setStats (counted correct (getStats s));
          App.setMastery (fst (getMasteryPercent s'))],
       s') /\
    clock s' = clock (loaded s) + 1.
Proof.
  apply (answer_is_checked_and_recorded
           (recordAnswer "AA" "UTG" true (module_init no_storage)) 0.5 Raise).
  - apply reach_answer, reach_init.
  - vm_compute. discriminate.
  - vm_compute. reflexivity.
Defined.

(** X19.  A card whose hand is in the table and whose position is none of
    the four positions (only a stored deck can hold one) makes the click
    fail: [handleAction] ends in a TypeError, and nothing is recorded and
    no state is set. *)
Theorem unknown_position_raises (card : CardState) (action : Action) (s : state) :
  In (hand card) (map entry_hand RANGES) ->
  App.Position_of_string (position card) = None ->
  App.handleAction (Some card) None action s
  = ({| App.updates := []; App.raised := Some TypeError |}, s).
Proof.
  intros Hin Hp. unfold App.handleAction, App.expected_includes. rewrite Hp.
  destruct (List.find _ RANGES) eqn:E; [reflexivity|].
  exfalso. apply in_map_iff in Hin. destruct Hin as (e & He & Hin).
  apply (find_none _ _ E) in Hin. rewrite He, String.eqb_refl in Hin. discriminate.
Qed.

Lemma unknown_position_raises_witness :
  let card := {| hand := "AA"; position := "Button"; interval := 0; ease := 2.5;
                 repetitions := 0; due := 0; lastSeen := -1 |} in
  let s := module_init {| STORAGE_KEY := Some (Json [card]); STATS_KEY := None |} in
  card_of "AA" "Button" s = Some card /\
  App.handleAction (Some card) None Raise (loaded s)
  = ({| App.updates := []; App.raised := Some TypeError |}, loaded s).
Proof.
  split; [vm_compute; reflexivity|].
  apply unknown_position_raises.
  - left. reflexivity.
  - reflexivity.
Defined.

(** X20.  The reset button starts afresh from any state: [handleReset]
    leaves the module with the fresh deck over empty storage, closes the
    dialog, and shows a new card of the catalog, no feedback, a mastery of
    0 and all-zero statistics. *)
Theorem reset_button_starts_afresh (s : state) (random : Q) :
  (0 <= random)%Q -> (random < 1)%Q ->
  exists c,
    In c getAllCombos /\
    App.handleReset random s
    = (App.returned [App.setShowConfirmReset false; App.setFeedback None;
                     App.setCard (Some (newCard c)); App.setMastery (Some 0);
                     App.setStats defaultStats],
       loaded (module_init no_storage)).
Proof.
  intros H0 H1.
  destruct (next_card_reachable no_storage (module_init no_storage) random
              (reach_init _) H0 H1) as (card & Hget & Hc).
  unfold card_of in Hc. rewrite the_deck_loaded, fresh_deck in Hc.
  apply get_Some_In in Hc. apply in_map_iff in Hc.
  destruct Hc as (c & Heq & Hin). exists c. split; [exact Hin|].
  assert (Hcard : card = newCard c) by now inversion Heq.
  unfold App.handleReset, App.drawCard.
  change (reloadDeck (resetProgress s)) with (module_init no_storage).
  rewrite Hget, Hcard.
  assert (Hm : getMasteryPercent (loaded (module_init no_storage))
               = (Some 0, loaded (module_init no_storage)))
    by (vm_compute; reflexivity).
  rewrite Hm. reflexivity.
Qed.

Lemma reset_button_starts_afresh_witness :
  let s := answers "AA" "UTG" [true; false; true] (module_init no_storage) in
  exists c,
    In c getAllCombos /\
    App.handleReset 0.25 s
    = (App.returned [App.setShowConfirmReset false; App.setFeedback None;
                     App.setCard (Some (newCard c)); App.setMastery (Some 0);
                     App.setStats defaultStats],
       loaded (module_init no_storage)).
Proof.
  apply (reset_button_starts_afresh
           (answers "AA" "UTG" [true; false; true] (module_init no_storage)) 0.25).
  - vm_compute. discriminate.
  - vm_compute. reflexivity.
Defined.





(** * The hand on screen *)

Lemma parseHand_type (hand_ : string) :
  let p := HandDisplay.parseHand hand_ in
  (HandDisplay.rank1 p = HandDisplay.rank2 p -> HandDisplay.type p = "pair") /\
  (HandDisplay.type p = "pair" \/ HandDisplay.type p = "suited" \/
   HandDisplay.type p = "offsuit").
Proof.
  unfold HandDisplay.parseHand.
  set (base := if Str.endsWith hand_ "s" || Str.endsWith hand_ "o"
               then Str.slice hand_ 0 (Some (-1)) else hand_).
  assert (H : forall (r1 r2 : option string) (suited : bool),
    let isPair := match r1, r2 with
                  | Some a, Some b => String.eqb a b
                  | None, None => true
                  | _, _ => false
                  end in
    let t := if isPair then "pair" else if suited then "suited" else "offsuit" in
    (r1 = r2 -> t = "pair") /\ (t = "pair" \/ t = "suited" \/ t = "offsuit")).
  { intros r1 r2 suited. cbn zeta. split.
    - intros <-. destruct r1; [now rewrite String.eqb_refl|reflexivity].
    - destruct r1, r2; try destruct (String.eqb _ _); destruct suited; auto. }
  destruct (Nat.eqb (String.length base) 2); apply H.
Qed.

(** X23.  [HandDisplay] never draws the same card twice: for every hand,
    the two cards differ in rank or in suit.  Equal ranks make the hand a
    pair, and a pair gets two suits. *)
Theorem two_cards_never_the_same (hand_ : string) :
  fst (HandDisplay.cards hand_) <> snd (HandDisplay.cards hand_).
Proof.
  unfold HandDisplay.cards.
  destruct (parseHand_type hand_) as [Hpair Htype].
  destruct (HandDisplay.parseHand hand_) as [r1 r2 t].
  cbn [HandDisplay.rank1 HandDisplay.rank2 HandDisplay.type] in *.
  destruct Htype as [-> | [-> | ->]]; cbn [HandDisplay.getSuits String.eqb Ascii.eqb Bool.eqb fst snd];
    intros E; inversion E; subst; specialize (Hpair eq_refl); discriminate.
Qed.

Lemma endsWith_cons a s suffix :
  s <> EmptyString -> String.length suffix = 1%nat ->
  Str.endsWith (String a s) suffix = Str.endsWith s suffix.
Proof.
  intros Hs Hlen. cbn [Str.endsWith].
  destruct (String.eqb_spec (String a s) suffix) as [<-|_]; [|reflexivity].
  destruct s; [contradiction|discriminate].
Qed.

Lemma slice_init (s : string) :
  Str.slice s 0 (Some (-1)) = String.substring 0 (String.length s - 1) s.
Proof.
  unfold Str.slice. cbn [Z.ltb Z.compare].
  set (len := Z.of_nat (String.length s)).
  replace (Z.to_nat (Z.min 0 len)) with 0%nat by lia.
  f_equal. lia.
Qed.

Lemma endsWith_init (s : string) (c : ascii) :
  Str.endsWith s (String c "") = true ->
  (Str.slice s 0 (Some (-1)) ++ String c "")%string = s.
Proof.
  rewrite slice_init. induction s as [|a s IH]; [discriminate|].
  destruct s as [|b s].
  - cbn. destruct (Ascii.eqb_spec a c); [now subst|discriminate].
  - rewrite endsWith_cons by (discriminate || reflexivity). intros H.
    specialize (IH H).
    replace (String.length (String a (String b s)) - 1)%nat
      with (S (String.length (String b s) - 1))%nat by (cbn [String.length]; lia).
    set (n := (String.length (String b s) - 1)%nat) in *.
    change (substring 0 (S n) (String a (String b s)))
      with (String a (substring 0 n (String b s))).
    change (String a (substring 0 n (String b s)) ++ String c "")%string
      with (String a (substring 0 n (String b s) ++ String c ""))%string.
    f_equal. exact IH.
Qed.

Lemma append_nil (t : string) : (EmptyString ++ t)%string = t.
Proof. reflexivity. Qed.

Lemma append_cons a (s t : string) : (String a s ++ t)%string = String a (s ++ t)%string.
Proof. reflexivity. Qed.

Lemma endsWith_last (s : string) (c : ascii) :
  Str.endsWith (s ++ String c "") (String c "") = true.
Proof.
  induction s as [|a s IH].
  - rewrite append_nil. cbn [Str.endsWith]. now rewrite String.eqb_refl.
  - rewrite append_cons, endsWith_cons; [exact IH| |reflexivity]. now destruct s.
Qed.

Lemma append_last_inj (c : ascii) : forall t s : string,
  (t ++ String c "")%string = (s ++ String c "")%string -> t = s.
Proof.
  induction t as [|a t IH]; intros [|b s]; rewrite ?append_nil, ?append_cons; intros E.
  - reflexivity.
  - inversion E as [[Ha Es]]. destruct s; discriminate.
  - inversion E as [[Ha Et]]. destruct t; discriminate.
  - inversion E. f_equal. now apply IH.
Qed.

Lemma slice_drop_last (s : string) (c : ascii) :
  Str.slice (s ++ String c "") 0 (Some (-1)) = s.
Proof.
  apply (append_last_inj c). apply endsWith_init, endsWith_last.
Qed.

(** X24.  A hand of two ranks and an optional suffix is parsed into its
    two ranks, and its type follows the code's order of tests: a pair
    when the ranks are equal, whatever the suffix, else suited with the
    suffix [s], and offsuit otherwise, also when there is no suffix. *)
Theorem parseHand_two_ranks (a b : ascii) :
  let parsed t :=
    {| HandDisplay.rank1 := Some (String a "");
       HandDisplay.rank2 := Some (String b "");
       HandDisplay.type := if Ascii.eqb a b then "pair" else t |} in
  HandDisplay.parseHand (String a (String b "s")) = parsed "suited" /\
  HandDisplay.parseHand (String a (String b "o")) = parsed "offsuit" /\
  (b <> "s"%char -> b <> "o"%char ->
   HandDisplay.parseHand (String a (String b "")) = parsed "offsuit").
Proof.
  cbn zeta.
  assert (Hpair : forall t : string,
            (if String.eqb (String a "") (String b "") then "pair" else t)
            = (if Ascii.eqb a b then "pair" else t)).
  { intros t. cbn [String.eqb]. now destruct (Ascii.eqb a b). }
  split; [|split].
  - unfold HandDisplay.parseHand.
    change (String a (String b "s")) with (String a (String b "") ++ "s")%string.
    rewrite (endsWith_last _ "s"). cbn [orb]. rewrite slice_drop_last.
    cbn [String.length Nat.eqb Str.index String.get option_map
         HandDisplay.rank1 HandDisplay.rank2 HandDisplay.type].
    now rewrite Hpair.
  - unfold HandDisplay.parseHand.
    change (String a (String b "o")) with (String a (String b "") ++ "o")%string.
    rewrite (endsWith_last _ "o"). rewrite Bool.orb_true_r, slice_drop_last.
    cbn [String.length Nat.eqb Str.index String.get option_map
         HandDisplay.rank1 HandDisplay.rank2 HandDisplay.type].
    rewrite Hpair.
    change (String a (String b "") ++ "o")%string with (String a (String b "o")).
    rewrite !endsWith_cons by (discriminate || reflexivity).
    reflexivity.
  - intros Hbs Hbo. unfold HandDisplay.parseHand.
    rewrite (endsWith_cons a (String b "") "s"), (endsWith_cons a (String b "") "o")
      by (discriminate || reflexivity).
    assert (E1 : Str.endsWith (String b "") "s" = false).
    { cbn. destruct (Ascii.eqb_spec b "s"); [contradiction|reflexivity]. }
    assert (E2 : Str.endsWith (String b "") "o" = false).
    { cbn. destruct (Ascii.eqb_spec b "o"); [contradiction|reflexivity]. }
    rewrite E1, E2. cbn [orb].
    cbn [String.length Nat.eqb Str.index String.get option_map
         HandDisplay.rank1 HandDisplay.rank2 HandDisplay.type].
    now rewrite Hpair.
Qed.

(** X25.  [formatHand] splits a hand into a base and its suffix letter and
    loses nothing: the base followed by the letter is the hand, the
    letter is [s], [o] or empty, the symbol returned is that letter's,
    and [isSuited] says whether the letter is [s]. *)
Theorem formatHand_splits_the_hand (hand_ : string) :
  exists letter,
    (letter = "s" \/ letter = "o" \/ letter = "") /\
    (App.base (App.formatHand hand_) ++ letter)%string = hand_ /\
    App.suffix (App.formatHand hand_) = App.SUIT_SYMBOLS letter /\
    (App.isSuited (App.formatHand hand_) = true <-> letter = "s") /\
    (letter = "" <-> Str.endsWith hand_ "s" = false /\ Str.endsWith hand_ "o" = false).
Proof.
  unfold App.formatHand.
  destruct (Str.endsWith hand_ "s") eqn:Es; [|destruct (Str.endsWith hand_ "o") eqn:Eo].
  - exists "s". cbn [String.eqb Ascii.eqb Bool.eqb negb App.base App.suffix App.isSuited].
    repeat split; auto; try discriminate.
    + now apply endsWith_init.
    + intros [H _]. discriminate.
  - exists "o". cbn [String.eqb Ascii.eqb Bool.eqb negb App.base App.suffix App.isSuited].
    repeat split; auto; try discriminate.
    + now apply endsWith_init.
    + intros [_ H]. discriminate.
  - exists "". cbn [String.eqb negb App.base App.suffix App.isSuited].
    repeat split; auto; try discriminate.
    clear. induction hand_ as [|a h IH]; [reflexivity|]. rewrite append_cons. now f_equal.
Qed.

(** ** The update rule in binary64 *)

(** The facts about the ease and the interval that the properties above
    rest on, in the arithmetic of the runtime: the floor 1.3, the step
    0.1 of a correct answer, and the lower bound of a rounded product. *)
Section Binary64Facts.
Import Binary64.

(** Powers of two. *)
Lemma pow2_step d : 0 < d -> 2 ^ d = 2 * 2 ^ (d - 1).
Proof.
  intros H. replace d with (Z.succ (d - 1)) at 1 by lia.
  apply Z.pow_succ_r. lia.
Qed.

Lemma pow2_pos d : 0 <= d -> 0 < 2 ^ d.
Proof. intros. apply Z.pow_pos_nonneg; lia. Qed.

(** The number of binary digits of a positive integer. *)
Lemma digits2_bounds p :
  2 ^ (Zpos (digits2_pos p) - 1) <= Zpos p < 2 ^ Zpos (digits2_pos p).
Proof.
  induction p as [p IH|p IH|]; cbn [digits2_pos].
  - rewrite Pos2Z.inj_succ.
    replace (Z.succ (Zpos (digits2_pos p)) - 1) with (Zpos (digits2_pos p)) by lia.
    rewrite (pow2_step (Z.succ _)) by lia.
    replace (Z.succ (Zpos (digits2_pos p)) - 1) with (Zpos (digits2_pos p)) by lia.
    rewrite (pow2_step (Zpos _)) in * by lia. lia.
  - rewrite Pos2Z.inj_succ.
    replace (Z.succ (Zpos (digits2_pos p)) - 1) with (Zpos (digits2_pos p)) by lia.
    rewrite (pow2_step (Z.succ _)) by lia.
    replace (Z.succ (Zpos (digits2_pos p)) - 1) with (Zpos (digits2_pos p)) by lia.
    rewrite (pow2_step (Zpos _)) in * by lia. lia.
  - cbn. lia.
Qed.

Lemma digits2_unique p d :
  2 ^ (d - 1) <= Zpos p < 2 ^ d -> Zpos (digits2_pos p) = d.
Proof.
  intros [Hl Hu]. destruct (digits2_bounds p) as [Hl' Hu'].
  set (D := Zpos (digits2_pos p)) in *.
  assert (Hd : 0 < d).
  { destruct (Z.ltb_spec 0 d) as [|Hle]; [assumption|exfalso].
    destruct (Z.eq_dec d 0) as [->|]; [cbn in Hu; lia|].
    rewrite Z.pow_neg_r in Hu by lia. lia. }
  destruct (Z.lt_trichotomy D d) as [H1|[H1|H1]]; [|exact H1|].
  - exfalso. assert (2 ^ D <= 2 ^ (d - 1)) by (apply Z.pow_le_mono_r; lia). lia.
  - exfalso. assert (2 ^ d <= 2 ^ (D - 1)) by (apply Z.pow_le_mono_r; lia). lia.
Qed.

(** Shifting a mantissa right divides it. *)
Lemma shr_1_m r : 0 <= shr_m r -> shr_m (shr_1 r) = shr_m r / 2.
Proof.
  destruct r as [m rb sb]. cbn [shr_m]. intros H.
  destruct m as [|[p|p|]|p]; cbn [shr_1 shr_m]; try lia;
    Z.div_mod_to_equations; lia.
Qed.

Lemma iter_shr_m n : forall r,
  0 <= shr_m r -> shr_m (SpecFloat.iter_pos shr_1 n r) = shr_m r / 2 ^ Zpos n.
Proof.
  induction n as [n IH|n IH|]; intros r Hr; cbn [SpecFloat.iter_pos].
  - assert (H1 : 0 <= shr_m (shr_1 r)) by (rewrite shr_1_m by lia; apply Z.div_pos; lia).
    assert (H2 : 0 <= shr_m (SpecFloat.iter_pos shr_1 n (shr_1 r)))
      by (rewrite IH by lia; apply Z.div_pos; [lia|apply pow2_pos; lia]).
    rewrite IH, IH, shr_1_m by lia.
    rewrite !Z.div_div by (try apply pow2_pos; lia).
    f_equal. rewrite Pos2Z.inj_xI, Z.pow_add_r, Z.pow_mul_r by lia.
    change (2 ^ 2) with 4. change (2^1) with 2.
    replace (4 ^ Zpos n) with (2 ^ Zpos n * 2 ^ Zpos n); [lia|].
    rewrite <- Z.pow_add_r by lia. replace (Zpos n + Zpos n) with (2 * Zpos n) by lia.
    now rewrite Z.pow_mul_r by lia.
  - assert (H2 : 0 <= shr_m (SpecFloat.iter_pos shr_1 n r))
      by (rewrite IH by lia; apply Z.div_pos; [lia|apply pow2_pos; lia]).
    rewrite IH, IH by lia.
    rewrite !Z.div_div by (try apply pow2_pos; lia).
    f_equal. rewrite Pos2Z.inj_xO.
    rewrite <- Z.pow_add_r by lia. f_equal. lia.
  - rewrite shr_1_m by lia. reflexivity.
Qed.

Lemma shr_spec r e n :
  0 <= shr_m r -> 0 <= n ->
  snd (shr r e n) = e + n /\ shr_m (fst (shr r e n)) = shr_m r / 2 ^ n.
Proof.
  intros Hr Hn. destruct n as [|q|q]; cbn [shr fst snd]; [| |lia].
  - split; [lia|]. now rewrite Z.div_1_r.
  - split; [reflexivity|]. now apply iter_shr_m.
Qed.

(** Rounding to nearest moves a mantissa by at most one. *)
Lemma round_nearest_even_bounds m l :
  m <= round_nearest_even m l <= m + 1.
Proof.
  destruct l as [|[| |]]; cbn [round_nearest_even]; try lia.
  destruct (Z.even m); lia.
Qed.

(** The exponent of a number in the normal range. *)
Lemma fexp_normal e : -1074 <= e - 53 -> fexp prec emax e = e - 53.
Proof. intros H. unfold fexp, emin, prec, emax. lia. Qed.

(** Dividing a number of [d] digits by [2 ^ (d - 53)] leaves 53 digits. *)
Lemma shifted_range p d :
  53 <= d -> 2 ^ (d - 1) <= p < 2 ^ d ->
  2 ^ 52 <= p / 2 ^ (d - 53) < 2 ^ 53.
Proof.
  intros Hd [Hl Hu].
  assert (Hpos : 0 < 2 ^ (d - 53)) by (apply pow2_pos; lia).
  assert (E1 : 2 ^ (d - 1) = 2 ^ 52 * 2 ^ (d - 53))
    by (rewrite <- Z.pow_add_r by lia; f_equal; lia).
  assert (E2 : 2 ^ d = 2 ^ 53 * 2 ^ (d - 53))
    by (rewrite <- Z.pow_add_r by lia; f_equal; lia).
  split.
  - apply Z.div_le_lower_bound; [exact Hpos|]. rewrite Z.mul_comm. lia.
  - apply Z.div_lt_upper_bound; [exact Hpos|]. rewrite Z.mul_comm. lia.
Qed.

(** Rounding a positive integer of at least 53 digits, in the range of
    the normal numbers. *)
Lemma round_aux_normal (s : bool) (p : positive) (E : Z) :
  let D := Zpos (digits2_pos p) in
  53 <= D -> -1074 <= D + E - 53 ->
  let R := binary_round_aux prec emax s (Zpos p) E loc_Exact in
  R = S754_infinity s \/
  exists m e,
    R = S754_finite s m e /\ bounded prec emax m e = true /\
    2 ^ 52 <= Zpos m < 2 ^ 53 /\
    ((e = D + E - 53 /\ Zpos p / 2 ^ (D - 53) <= Zpos m) \/ e = D + E - 52).
Proof.
  intros D HD HE R. unfold R, binary_round_aux, shr_fexp.
  cbn [Zdigits2]. fold D. rewrite (fexp_normal (D + E)) by lia.
  replace (D + E - 53 - E) with (D - 53) by lia.
  destruct (shr_spec (shr_record_of_loc (Zpos p) loc_Exact) E (D - 53))
    as [He1 Hm1]; [cbn; lia|lia|].
  destruct (shr (shr_record_of_loc (Zpos p) loc_Exact) E (D - 53)) as [mrs1 e1].
  cbn [fst snd] in He1, Hm1. cbn [shr_record_of_loc shr_m] in Hm1.
  pose proof (shifted_range (Zpos p) D HD (digits2_bounds p)) as Hrange.
  rewrite <- Hm1 in Hrange.
  pose proof (round_nearest_even_bounds (shr_m mrs1) (loc_of_shr_record mrs1)) as Hrne.
  set (m2 := round_nearest_even (shr_m mrs1) (loc_of_shr_record mrs1)) in *.
  assert (Hm2 : 2 ^ 52 <= m2 <= 2 ^ 53) by lia.
  destruct m2 as [|q|q] eqn:Eq; [cbn in Hm2; lia| |cbn in Hm2; lia].
  cbn [Zdigits2].
  destruct (Z.eq_dec (Zpos q) (2 ^ 53)) as [Htop|Hlow].
  - (* the mantissa was rounded up to 2^53 *)
    assert (Hq : Zpos (digits2_pos q) = 54) by (apply digits2_unique; rewrite Htop; cbn; lia).
    rewrite Hq, (fexp_normal (54 + e1)) by lia.
    replace (54 + e1 - 53 - e1) with 1 by lia.
    cbn [shr SpecFloat.iter_pos shr_record_of_loc].
    rewrite shr_1_m by (cbn; lia). cbn [shr_m]. rewrite Htop.
    change (2 ^ 53 / 2) with (Zpos 4503599627370496).
    destruct (Z.leb_spec (e1 + 1) (emax - prec)); [right|now left].
    exists 4503599627370496%positive, (e1 + 1).
    split; [reflexivity|]. split.
    + unfold bounded, canonical_mantissa.
      change (Zpos (digits2_pos 4503599627370496)) with 53.
      rewrite (fexp_normal (53 + (e1 + 1))) by lia.
      apply andb_true_intro. split; [apply Z.eqb_eq; lia|apply Z.leb_le; lia].
    + split; [cbn; lia|]. right. lia.
  - assert (Hq : Zpos (digits2_pos q) = 53) by (apply digits2_unique; lia).
    rewrite Hq, (fexp_normal (53 + e1)) by lia.
    replace (53 + e1 - 53 - e1) with 0 by lia.
    cbn [shr shr_record_of_loc shr_m].
    destruct (Z.leb_spec e1 (emax - prec)); [right|now left].
    exists q, e1. split; [reflexivity|]. split.
    + unfold bounded, canonical_mantissa. rewrite Hq.
      rewrite (fexp_normal (53 + e1)) by lia.
      apply andb_true_intro. split; [apply Z.eqb_eq; lia|apply Z.leb_le; lia].
    + split; [lia|]. left. split; [lia|]. lia.
Qed.

(** Shifting a mantissa left multiplies it. *)
Lemma iter_xO p n : Zpos (Pos.iter xO p n) = Zpos p * 2 ^ Zpos n.
Proof.
  revert p. induction n as [|n IH] using Pos.peano_ind; intros p.
  - cbn. lia.
  - rewrite Pos.iter_succ, Pos2Z.inj_xO, IH, Pos2Z.inj_succ, Z.pow_succ_r by lia. lia.
Qed.

Lemma shl_align_spec mx ex ex' :
  ex' <= ex ->
  snd (shl_align mx ex ex') = ex' /\
  Zpos (fst (shl_align mx ex ex')) = Zpos mx * 2 ^ (ex - ex').
Proof.
  intros H. unfold shl_align.
  destruct (ex' - ex) as [|d|d] eqn:E; cbn [fst snd]; try lia.
  - assert (ex' = ex) by lia. subst. rewrite Z.sub_diag. split; lia.
  - split; [reflexivity|]. rewrite iter_xO. f_equal. f_equal. lia.
Qed.

Lemma shl_align_same mx ex ex' : ex <= ex' -> shl_align mx ex ex' = (mx, ex).
Proof.
  intros H. unfold shl_align. destruct (ex' - ex) eqn:E; try reflexivity. lia.
Qed.

(** Rounding never gives NaN. *)
Lemma shr_nonneg r e n : 0 <= shr_m r -> 0 <= shr_m (fst (shr r e n)).
Proof.
  intros Hr. destruct n as [|q|q]; cbn [shr fst]; try exact Hr.
  rewrite iter_shr_m by exact Hr. apply Z.div_pos; [exact Hr|apply pow2_pos; lia].
Qed.

Lemma round_aux_not_nan s p e l :
  binary_round_aux prec emax s (Zpos p) e l <> S754_nan.
Proof.
  unfold binary_round_aux, shr_fexp.
  pose proof (shr_nonneg (shr_record_of_loc (Zpos p) l) e
                (fexp prec emax (Zdigits2 (Zpos p) + e) - e)) as H1.
  destruct (shr (shr_record_of_loc (Zpos p) l) e _) as [mrs1 e1].
  cbn [fst] in H1.
  assert (H1' : 0 <= shr_m mrs1) by (apply H1; destruct l as [|[| |]]; cbn; lia).
  pose proof (round_nearest_even_bounds (shr_m mrs1) (loc_of_shr_record mrs1)) as Hr.
  set (m2 := round_nearest_even _ _) in *.
  pose proof (shr_nonneg (shr_record_of_loc m2 loc_Exact) e1
                (fexp prec emax (Zdigits2 m2 + e1) - e1)) as H2.
  destruct (shr (shr_record_of_loc m2 loc_Exact) e1 _) as [mrs2 e2].
  cbn [fst] in H2. specialize (H2 ltac:(cbn; lia)).
  destruct (shr_m mrs2); [discriminate| |lia].
  destruct (e2 <=? emax - prec); discriminate.
Qed.

Lemma normalize_not_nan m e z : binary_normalize prec emax m e z <> S754_nan.
Proof.
  destruct m as [|p|p]; cbn [binary_normalize]; [discriminate| |];
    unfold binary_round; destruct (shl_align _ _ _); apply round_aux_not_nan.
Qed.

(** Adding or subtracting a positive finite number gives NaN only from
    NaN. *)
Lemma add_not_nan x m e : x <> S754_nan -> add x (S754_finite false m e) <> S754_nan.
Proof.
  intros Hx. destruct x as [s|s| |s mx ex]; cbn [add SFadd]; try discriminate; try congruence.
  apply normalize_not_nan.
Qed.

Lemma sub_not_nan x m e : x <> S754_nan -> sub x (S754_finite false m e) <> S754_nan.
Proof.
  intros Hx. destruct x as [s|s| |s mx ex]; cbn [sub SFsub]; try discriminate; try congruence.
  apply normalize_not_nan.
Qed.

(** [Math.max] is at least its first argument, when neither is NaN. *)
Lemma max_floor a y : a <> S754_nan -> y <> S754_nan -> SFleb a a = true ->
  le a (max a y) /\ max a y <> S754_nan.
Proof.
  intros Ha Hy Hrefl. unfold le, max, SFleb in *.
  destruct (SFcompare a y) as [[| |]|] eqn:E; auto.
  - rewrite E. auto.
  - exfalso. destruct a, y; cbn in E; try discriminate; congruence.
Qed.

(** The three literals of the update rule, as binary64 values. *)
Lemma literals :
  decimal 13 10 = lit_1_3 /\ decimal 1 10 = lit_0_1 /\ decimal 3 10 = lit_0_3.
Proof. vm_compute. repeat split. Qed.

(** A valid number at or above 1.3 is [+infinity] or a normal number with
    exponent at least -52. *)
Lemma above_lit_1_3 x :
  valid_binary prec emax x = true -> le lit_1_3 x ->
  x = S754_infinity false \/
  exists m e, x = S754_finite false m e /\ 2 ^ 52 <= Zpos m < 2 ^ 53 /\
              -52 <= e <= 971 /\ (e = -52 -> 5854679515581645 <= Zpos m).
Proof.
  unfold le, SFleb, lit_1_3. intros Hv Hle.
  destruct x as [s|[|]| |[|] m e]; cbn [SFcompare] in Hle; try discriminate;
    [now left|right].
  exists m, e. split; [reflexivity|].
  cbn [valid_binary] in Hv. unfold bounded, canonical_mantissa in Hv.
  apply andb_prop in Hv. destruct Hv as [Hc He].
  apply Z.eqb_eq in Hc. apply Z.leb_le in He.
  assert (He52 : -52 <= e /\ (e = -52 -> 5854679515581645 <= Zpos m)).
  { destruct (Z.compare_spec (-52) e) as [<-|Hlt|Hgt].
    - split; [lia|]. intros _.
      change (Pos.compare_cont Eq 5854679515581645 m)
        with (5854679515581645 ?= m)%positive in Hle.
      destruct (Pos.compare_spec 5854679515581645 m); try discriminate; lia.
    - split; lia.
    - discriminate. }
  destruct He52 as [He52 Hm].
  unfold fexp, emin, prec, emax in *.
  assert (Hd : Zpos (digits2_pos m) = 53) by lia.
  pose proof (digits2_bounds m) as Hb. rewrite Hd in Hb.
  split; [exact Hb|]. split; [lia|exact Hm].
Qed.

(** The step of a correct answer: the sum is at least 1.3, so the floor
    does not bind. *)
Lemma add_tenth_above x :
  valid_binary prec emax x = true -> le lit_1_3 x ->
  valid_binary prec emax (add x lit_0_1) = true /\ le lit_1_3 (add x lit_0_1).
Proof.
  intros Hv Hle. destruct (above_lit_1_3 x Hv Hle) as [->|(m & e & -> & Hm & He & Hm13)].
  { split; reflexivity. }
  unfold add, lit_0_1, SFadd. rewrite Z.min_r by lia.
  destruct (shl_align_spec m e (-56)) as [_ Ha]; [lia|].
  rewrite (shl_align_same 7205759403792794 (-56) (-56)) by lia.
  cbn [fst cond_Zopp].
  set (a := fst (shl_align m e (-56))) in *.
  change (Zpos a + Zpos 7205759403792794) with (Zpos (a + 7205759403792794)).
  cbn [binary_normalize]. unfold binary_round.
  set (M := (a + 7205759403792794)%positive).
  assert (HM : Zpos M = Zpos m * 2 ^ (e + 56) + 7205759403792794).
  { unfold M. rewrite Pos2Z.inj_add, Ha.
    replace (e - -56) with (e + 56) by lia. reflexivity. }
  set (D := Zpos (digits2_pos M)).
  pose proof (digits2_bounds M) as HD. fold D in HD.
  assert (Hpow : 2 ^ (e + 108) = 2 ^ 52 * 2 ^ (e + 56))
    by (rewrite <- Z.pow_add_r by lia; f_equal; lia).
  assert (Hp56 : 0 < 2 ^ (e + 56)) by (apply pow2_pos; lia).
  assert (HDlow : e + 109 <= D).
  { destruct (Z.le_gt_cases (e + 109) D) as [|Hlt]; [assumption|exfalso].
    assert (2 ^ D <= 2 ^ (e + 108)) by (apply Z.pow_le_mono_r; lia). nia. }
  rewrite (fexp_normal (D + -56)) by lia.
  rewrite shl_align_same by lia.
  destruct (round_aux_normal false M (-56)) as [->|(m2 & e2 & -> & Hb & Hm2 & Hcase)];
    fold D; try lia.
  { split; reflexivity. }
  split; [exact Hb|].
  unfold le, SFleb, lit_1_3. cbn [SFcompare].
  assert (He2 : -52 <= e2) by lia.
  destruct (Z.compare_spec (-52) e2) as [Heq|Hlt|Hgt]; [|reflexivity|lia].
  change (Pos.compare_cont Eq 5854679515581645 m2) with (5854679515581645 ?= m2)%positive.
  assert (Hge : 5854679515581645 <= Zpos m2).
  { fold D in Hcase. destruct Hcase as [[He2' Hdiv]|He2']; [|lia].
    assert (e = -52) by lia. subst e. assert (D = 57) by lia.
    specialize (Hm13 eq_refl).
    replace (D - 53) with 4 in Hdiv by lia. rewrite HM in Hdiv.
    change (-52 + 56) with 4 in Hdiv.
    assert (Zpos m <= (Zpos m * 2 ^ 4 + 7205759403792794) / 2 ^ 4).
    { apply Z.div_le_lower_bound; lia. }
    lia. }
  assert (Hc : (5854679515581645 ?= m2)%positive <> Gt)
    by (apply Pos.compare_le_iff; lia).
  destruct (5854679515581645 ?= m2)%positive; congruence.
Qed.

(** A positive integer converts to [+infinity] or to a normal number
    with exponent at least -52. *)
Lemma of_Z_positive i :
  1 <= i ->
  of_Z i = S754_infinity false \/
  exists m e, of_Z i = S754_finite false m e /\
              2 ^ 52 <= Zpos m < 2 ^ 53 /\ -52 <= e.
Proof.
  intros Hi. destruct i as [|q|q]; try lia.
  unfold of_Z. cbn [binary_normalize]. unfold binary_round.
  set (d := Zpos (digits2_pos q)).
  pose proof (digits2_bounds q) as Hd. fold d in Hd.
  assert (Hd1 : 1 <= d) by (unfold d; lia).
  rewrite Z.add_0_r, (fexp_normal d) by lia.
  destruct (Z.le_gt_cases 53 d) as [Hbig|Hsmall].
  - rewrite shl_align_same by lia.
    destruct (round_aux_normal false q 0) as [->|(m & e & -> & _ & Hm & Hcase)];
      fold d; try lia; [now left|right].
    exists m, e. split; [reflexivity|]. split; [exact Hm|]. fold d in Hcase. lia.
  - destruct (shl_align_spec q 0 (d - 53)) as [He Hm]; [lia|].
    destruct (shl_align q 0 (d - 53)) as [q' e']. cbn [fst snd] in He, Hm. subst e'.
    replace (0 - (d - 53)) with (53 - d) in Hm by lia.
    assert (Hq' : Zpos (digits2_pos q') = 53).
    { apply digits2_unique. rewrite Hm.
      assert (E1 : 2 ^ (53 - 1) = 2 ^ (d - 1) * 2 ^ (53 - d))
        by (rewrite <- Z.pow_add_r by lia; f_equal; lia).
      assert (E2 : 2 ^ 53 = 2 ^ d * 2 ^ (53 - d))
        by (rewrite <- Z.pow_add_r by lia; f_equal; lia).
      assert (0 < 2 ^ (53 - d)) by (apply pow2_pos; lia).
      rewrite E1, E2. nia. }
    destruct (round_aux_normal false q' (d - 53)) as [->|(m & e & -> & _ & Hm' & Hcase)];
      rewrite ?Hq'; try lia; [now left|right].
    exists m, e. split; [reflexivity|]. split; [exact Hm'|]. rewrite Hq' in Hcase. lia.
Qed.

(** The product of a positive integer and an ease at or above 1.3 rounds
    to an integer that is at least 1, unless it is [+infinity]. *)
Lemma round_finite_lower m e :
  2 ^ 52 <= Zpos m -> -52 <= e ->
  exists n, round (S754_finite false m e) = Some n /\ 1 <= n.
Proof.
  intros Hm He. cbn [round]. eexists. split; [reflexivity|].
  destruct (Z.leb_spec 0 e).
  - assert (0 < 2 ^ e) by (apply pow2_pos; lia). nia.
  - apply Z.div_le_lower_bound; [apply pow2_pos; lia|].
    assert (2 ^ (1 - e) <= 2 ^ 53) by (apply Z.pow_le_mono_r; lia).
    assert (0 < 2 ^ (- e)) by (apply pow2_pos; lia).
    change (2 ^ 53) with (2 * 2 ^ 52) in *. lia.
Qed.

(** The same, for the product the update rule rounds. *)
Lemma interval_lower i x :
  1 <= i -> valid_binary prec emax x = true -> le lit_1_3 x ->
  mul (of_Z i) x = S754_infinity false \/
  exists n, round (mul (of_Z i) x) = Some n /\ 1 <= n.
Proof.
  intros Hi Hv Hle.
  destruct (above_lit_1_3 x Hv Hle) as [->|(m & e & -> & Hm & He & _)];
    destruct (of_Z_positive i Hi) as [->|(mi & ei & -> & Hmi & Hei)];
    try (left; reflexivity).
  unfold mul. cbn [SFmul xorb].
  set (P := (mi * m)%positive).
  assert (HP : 2 ^ 104 <= Zpos P < 2 ^ 106).
  { unfold P. rewrite Pos2Z.inj_mul.
    change (2 ^ 104) with (2 ^ 52 * 2 ^ 52). change (2 ^ 106) with (2 ^ 53 * 2 ^ 53).
    nia. }
  set (D := Zpos (digits2_pos P)).
  pose proof (digits2_bounds P) as HD. fold D in HD.
  assert (HDlow : 105 <= D).
  { destruct (Z.le_gt_cases 105 D) as [|Hlt]; [assumption|exfalso].
    assert (2 ^ D <= 2 ^ 104) by (apply Z.pow_le_mono_r; lia). lia. }
  destruct (round_aux_normal false P (ei + e)) as [->|(m2 & e2 & -> & _ & Hm2 & Hcase)];
    fold D; try lia; [now left|right].
  fold D in Hcase. apply round_finite_lower; lia.
Qed.

(** At or above the floor, [Math.max] returns its second argument. *)
Lemma max_floor_slack y : le lit_1_3 y -> max lit_1_3 y = y.
Proof.
  unfold le, SFleb, max, lit_1_3. intros H.
  destruct y as [s|[|]| |[|] m e]; cbn [SFcompare] in *; try discriminate; try reflexivity.
  destruct (Z.compare_spec (-52) e) as [He|Hlt|Hgt]; try reflexivity; try discriminate.
  subst e.
  change (Pos.compare_cont Eq 5854679515581645 m) with (5854679515581645 ?= m)%positive in *.
  destruct (5854679515581645 ?= m)%positive eqn:E; try reflexivity; try discriminate.
  apply Pos.compare_eq in E. now subst.
Qed.

(** X26.  The floor of the ease in binary64: whatever the ease of the card, NaN
    apart, the ease each branch of the update rule stores is a number at
    or above the literal 1.3. *)
Lemma binary64_ease_floor x :
  x <> S754_nan ->
  let up := max (decimal 13 10) (add x (decimal 1 10)) in
  let down := max (decimal 13 10) (sub x (decimal 3 10)) in
  le (decimal 13 10) up /\ up <> S754_nan /\
  le (decimal 13 10) down /\ down <> S754_nan.
Proof.
  intros Hx. destruct literals as (-> & -> & ->). cbn zeta.
  destruct (max_floor lit_1_3 (add x lit_0_1)) as [H1 H2];
    [discriminate|now apply add_not_nan|reflexivity|].
  destruct (max_floor lit_1_3 (sub x lit_0_3)) as [H3 H4];
    [discriminate|now apply sub_not_nan|reflexivity|].
  auto.
Qed.

(** X27.  The step of a correct answer in binary64: on an ease at or above the
    literal 1.3 the floor does not bind, the stored ease is the rounded
    sum [ease + 0.1], again a number at or above 1.3. *)
Lemma binary64_ease_step x :
  valid_binary prec emax x = true -> le (decimal 13 10) x ->
  let up := max (decimal 13 10) (add x (decimal 1 10)) in
  up = add x (decimal 1 10) /\
  valid_binary prec emax up = true /\ le (decimal 13 10) up.
Proof.
  destruct literals as (-> & -> & _). intros Hv Hle. cbn zeta.
  destruct (add_tenth_above x Hv Hle) as [Hv' Hle'].
  rewrite (max_floor_slack _ Hle'). auto.
Qed.

(** X28.  The third branch of the interval in binary64: a positive interval
    times an ease at or above 1.3 rounds to an integer at least 1, unless
    the product has left the finite numbers. *)
Lemma binary64_interval_lower i x :
  1 <= i -> valid_binary prec emax x = true -> le (decimal 13 10) x ->
  mul (of_Z i) x = S754_infinity false \/
  exists n, round (mul (of_Z i) x) = Some n /\ 1 <= n.
Proof. destruct literals as (-> & _). apply interval_lower. Qed.

End Binary64Facts.

(** ** The numbers of C1 in binary64 *)

(** The update rule on a new card, three correct answers in a row, with
    the ease in binary64: the eases are the literals 2.6 and 2.7, then the
    value next above the literal 2.8, and the intervals are those of the
    exact computation: the third is [round(3 * 2.7) = 8]. *)
Lemma binary64_three_correct :
  let ease0 := Binary64.decimal 25 10 in
  let ease1 := Binary64.max (Binary64.decimal 13 10)
                 (Binary64.add ease0 (Binary64.decimal 1 10)) in
  let ease2 := Binary64.max (Binary64.decimal 13 10)
                 (Binary64.add ease1 (Binary64.decimal 1 10)) in
  let ease3 := Binary64.max (Binary64.decimal 13 10)
                 (Binary64.add ease2 (Binary64.decimal 1 10)) in
  ease1 = Binary64.decimal 26 10 /\
  ease2 = Binary64.decimal 27 10 /\
  Binary64.round (Binary64.mul (Binary64.of_Z 3) ease2) = Some 8 /\
  Binary64.round (Binary64.mul (Binary64.of_Z 3) ease2)
  = Some (Math.round (3 * 2.7)) /\
  ease3 = S754_finite false 6305039478318695 (-51) /\
  Binary64.decimal 28 10 = S754_finite false 6305039478318694 (-51).
Proof. vm_compute. repeat split. Qed.

(** ** The rule at concrete doubles *)

(** At the floor itself: the double 1.3 plus 0.1, and the double 1.3
    minus 0.3, which the floor brings back to 1.3. *)
Lemma binary64_ease_floor_witness :
  let x := Binary64.decimal 13 10 in
  let up := Binary64.max (Binary64.decimal 13 10)
              (Binary64.add x (Binary64.decimal 1 10)) in
  let down := Binary64.max (Binary64.decimal 13 10)
                (Binary64.sub x (Binary64.decimal 3 10)) in
  down = Binary64.decimal 13 10 /\
  (Binary64.le (Binary64.decimal 13 10) up /\ up <> S754_nan /\
   Binary64.le (Binary64.decimal 13 10) down /\ down <> S754_nan).
Proof.
  split; [vm_compute; reflexivity|].
  apply (binary64_ease_floor (Binary64.decimal 13 10)).
  vm_compute. discriminate.
Defined.

Lemma binary64_ease_step_witness :
  let x := Binary64.decimal 25 10 in
  let up := Binary64.max (Binary64.decimal 13 10)
              (Binary64.add x (Binary64.decimal 1 10)) in
  up = Binary64.add x (Binary64.decimal 1 10) /\
  valid_binary Binary64.prec Binary64.emax up = true /\
  Binary64.le (Binary64.decimal 13 10) up.
Proof.
  apply (binary64_ease_step (Binary64.decimal 25 10)).
  - vm_compute. reflexivity.
  - vm_compute. reflexivity.
Defined.

Lemma binary64_interval_lower_witness :
  let x := Binary64.decimal 27 10 in
  Binary64.round (Binary64.mul (Binary64.of_Z 3) x) = Some 8 /\
  (Binary64.mul (Binary64.of_Z 3) x = S754_infinity false \/
   exists n, Binary64.round (Binary64.mul (Binary64.of_Z 3) x) = Some n /\ 1 <= n).
Proof.
  split; [vm_compute; reflexivity|].
  apply (binary64_interval_lower 3 (Binary64.decimal 27 10)).
  - lia.
  - vm_compute. reflexivity.
  - vm_compute. reflexivity.
Defined.
